(** * PathTracing.h: a shallow embedding of the recursive path tracer

    The embedding follows [Ray_Tracing/Ray_Tracing/PathTracing.h]:
    [createCoordinateSystem], [uniformSampleHemisphere], [reflect],
    [refract], [castRay] and [render].

    The C++ code computes on [float] (and, in a few sub-expressions, on
    [double]).  The embedding is written once, generically over a scalar
    interface [Scalar], so that the control flow of the integrator is
    verified for every interpretation of the arithmetic.  Two instances
    follow: [R_scalar] (real numbers), in which the algebraic facts about
    the geometry helpers are proved and rounding plays no part, and
    [binary32] (IEEE 754 single precision), in which the helpers run bit
    for bit as they do on [float].

    [castRay] and [render] run in a state monad over the process-wide
    random generator; the recursion of [castRay] is unfolded up to a
    budget of nested calls, and a run that exhausts it ends in
    [OutOfFuel].  Next to the generator the state carries a log of what
    a run does (calls of [castRay], intersection queries, writes to the
    pixel buffer), which the statements about calls and writes read. *)

From Stdlib Require Import ZArith List Bool Lia Reals Lra Psatz SpecFloat.
From stdpp Require Import base list.
Import ListNotations.

Set Default Proof Using "Type".

(** ** Scalars *)

(** The arithmetic that the source performs on [float]/[double] values. *)
Class Scalar (T : Type) : Type := {
  s0 : T;
  s1 : T;
  sadd : T -> T -> T;
  ssub : T -> T -> T;
  smul : T -> T -> T;
  sdiv : T -> T -> T;
  sneg : T -> T;
  sqrtf : T -> T;
  fabs : T -> T;
  cosf : T -> T;
  sinf : T -> T;
  tanf : T -> T;
  powf : T -> T -> T;
  M_PI : T;
  sltb : T -> T -> bool;
  of_int : Z -> T
}.

Declare Scope scalar_scope.
Delimit Scope scalar_scope with sc.
Notation "a + b" := (sadd a b) : scalar_scope.
Notation "a - b" := (ssub a b) : scalar_scope.
Notation "a * b" := (smul a b) : scalar_scope.
Notation "a / b" := (sdiv a b) : scalar_scope.
Notation "- a" := (sneg a) : scalar_scope.
Notation "a <? b" := (sltb a b) : scalar_scope.
Notation "a >? b" := (sltb b a) : scalar_scope.

Section Geometry.
Context {T : Type} `{Scalar T}.

(** [std::max] and [std::min] as the standard library defines them. *)
Definition smax (a b : T) : T := if (a <? b)%sc then b else a.
Definition smin (a b : T) : T := if (b <? a)%sc then b else a.

(** Modelled from the spec: [Vec3f] of Geometry.h, which is not part of
    the sources at hand.  Three scalar components with addition,
    subtraction, scalar and component-wise multiplication, division by
    a scalar, negation, dot and cross product. *)
Record Vec3 : Type := mkVec3 { vx : T; vy : T; vz : T }.

(** [Vec3f(s)]: the broadcasting constructor, as used by [Vec3f x = 0]. *)
Definition vsplat (s : T) : Vec3 := mkVec3 s s s.
Definition vzero : Vec3 := vsplat s0.

Definition vadd (a b : Vec3) : Vec3 :=
  mkVec3 (vx a + vx b)%sc (vy a + vy b)%sc (vz a + vz b)%sc.
Definition vsub (a b : Vec3) : Vec3 :=
  mkVec3 (vx a - vx b)%sc (vy a - vy b)%sc (vz a - vz b)%sc.
Definition vneg (a : Vec3) : Vec3 :=
  mkVec3 (- vx a)%sc (- vy a)%sc (- vz a)%sc.
(** [v * s] and [s * v]. *)
Definition vscale (a : Vec3) (s : T) : Vec3 :=
  mkVec3 (vx a * s)%sc (vy a * s)%sc (vz a * s)%sc.
Definition sscale (s : T) (a : Vec3) : Vec3 :=
  mkVec3 (s * vx a)%sc (s * vy a)%sc (s * vz a)%sc.
(** [v * w], component by component. *)
Definition vmul (a b : Vec3) : Vec3 :=
  mkVec3 (vx a * vx b)%sc (vy a * vy b)%sc (vz a * vz b)%sc.
(** [v / s]. *)
Definition vdiv (a : Vec3) (s : T) : Vec3 :=
  mkVec3 (vx a / s)%sc (vy a / s)%sc (vz a / s)%sc.
Definition dotProduct (a b : Vec3) : T :=
  (vx a * vx b + vy a * vy b + vz a * vz b)%sc.
Definition crossProduct (a b : Vec3) : Vec3 :=
  mkVec3 (vy a * vz b - vz a * vy b)%sc
         (vz a * vx b - vx a * vz b)%sc
         (vx a * vy b - vy a * vx b)%sc.
Definition vlength (a : Vec3) : T := sqrtf (dotProduct a a).

(** *** createCoordinateSystem *)

(** The value under the square root by which the tangent is divided. *)
Definition tangentDenominator (N : Vec3) : T :=
  if (fabs (vx N) >? fabs (vy N))%sc
  then sqrtf (vx N * vx N + vz N * vz N)%sc
  else sqrtf (vy N * vy N + vz N * vz N)%sc.

(** Returns the pair [(Nt, Nb)] that the source writes through its two
    reference parameters. *)
Definition createCoordinateSystem (N : Vec3) : Vec3 * Vec3 :=
  let Nt :=
    if (fabs (vx N) >? fabs (vy N))%sc
    then vdiv (mkVec3 (vz N) s0 (- vx N)%sc)
              (sqrtf (vx N * vx N + vz N * vz N)%sc)
    else vdiv (mkVec3 s0 (- vz N)%sc (vy N))
              (sqrtf (vy N * vy N + vz N * vz N)%sc) in
  let Nb := crossProduct N Nt in
  (Nt, Nb).

(** *** uniformSampleHemisphere *)

Definition uniformSampleHemisphere (r1 r2 : T) : Vec3 :=
  let sinTheta := sqrtf (s1 - r1 * r1)%sc in
  let phi := (of_int 2 * M_PI * r2)%sc in
  let x := (sinTheta * cosf phi)%sc in
  let z := (sinTheta * sinf phi)%sc in
  mkVec3 x r1 z.

(** *** reflect *)

Definition reflect (I N : Vec3) : Vec3 :=
  vsub I (sscale (of_int 2 * dotProduct I N)%sc N).

(** *** refract *)

(** The locals of [refract] after the branch on the sign of [cosi]:
    the cosine, the two indices and the oriented normal. *)
Definition refract_locals (I N : Vec3) (ior : T) : T * T * T * Vec3 :=
  let cosi := smin (smax (sneg s1) (dotProduct I N)) s1 in
  let etai := s1 in
  let etat := ior in
  let n := N in
  if (cosi <? s0)%sc then ((- cosi)%sc, etai, etat, n)
  else (cosi, etat, etai, vneg N).

(** The discriminant [k]. *)
Definition refract_k (I N : Vec3) (ior : T) : T :=
  let '(cosi, etai, etat, n) := refract_locals I N ior in
  let eta := (etai / etat)%sc in
  (s1 - eta * eta * (s1 - cosi * cosi))%sc.

Definition refract (I N : Vec3) (ior : T) : Vec3 :=
  let '(cosi, etai, etat, n) := refract_locals I N ior in
  let eta := (etai / etat)%sc in
  let k := (s1 - eta * eta * (s1 - cosi * cosi))%sc in
  if (k <? s0)%sc then vsplat s0
  else vadd (sscale eta I) (sscale (eta * cosi - sqrtf k)%sc n).

End Geometry.

Arguments Vec3 T : clear implicits.

Section GeometryDerived.
Context {T : Type} `{Scalar T}.

(** The world-space direction of a local sample: the expression that
    [castRay] writes out for [sampleWorld], with [Nb], the normal and [Nt]
    as the images of the local X, Y and Z axes. *)
Definition toWorld (sample hitNormal Nt Nb : Vec3 T) : Vec3 T :=
  mkVec3 (vx sample * vx Nb + vy sample * vx hitNormal + vz sample * vx Nt)%sc
         (vx sample * vy Nb + vy sample * vy hitNormal + vz sample * vy Nt)%sc
         (vx sample * vz Nb + vy sample * vz hitNormal + vz sample * vz Nt)%sc.

(** The ratio [eta] of [refract], after the branch. *)
Definition refract_eta (I N : Vec3 T) (ior : T) : T :=
  let '(cosi, etai, etat, n) := refract_locals I N ior in
  (etai / etat)%sc.

End GeometryDerived.

(** ** The exact instance: real numbers *)

Definition Rltb (a b : R) : bool := if Rlt_dec a b then true else false.

(** C's [pow] on real arguments.  A positive base [x] gives
    [exp (y * ln x)]; a base that is zero or negative has a value for an
    integer exponent [n], the product of [n] factors [x] or its inverse
    ([pow(-1, 1) = -1], [pow(0, 1) = 0], [pow(x, 0) = 1]); zero to a
    positive power is zero.  In the cases that are left (a negative base
    with a fractional exponent, zero to a negative power) C answers with a
    NaN or an infinity, which no real number stands for: the value here
    carries no meaning for them. *)
Definition pow_R (x y : R) : R :=
  if Rlt_dec 0 x then Rpower x y
  else if Req_dec_T y (IZR (Int_part y)) then powerRZ x (Int_part y)
  else 0%R.

#[export] Instance R_scalar : Scalar R := {|
  s0 := 0%R;
  s1 := 1%R;
  sadd := Rplus;
  ssub := Rminus;
  smul := Rmult;
  sdiv := Rdiv;
  sneg := Ropp;
  sqrtf := sqrt;
  fabs := Rabs;
  cosf := cos;
  sinf := sin;
  tanf := tan;
  powf := pow_R;
  M_PI := PI;
  sltb := Rltb;
  of_int := IZR
|}.

(** ** The machine instance: IEEE 754 binary32 *)

(** [float] is IEEE 754 binary32: 24 bits of precision, infinities at
    exponent 128, every operation rounded to nearest with ties to even.
    [SpecFloat] of the standard library specifies these operations bit
    for bit.  It has one NaN and no payloads, and its equality tells the
    two zeros apart. *)
Definition float : Type := spec_float.
Definition float_prec : Z := 24.
Definition float_emax : Z := 128.

(** The conversion of an [int] to [float]. *)
Definition float_of_int (z : Z) : float :=
  binary_normalize float_prec float_emax z 0 false.

(** What the C library and the [double] sub-expressions contribute:
    [cosf], [sinf], [tan], [pow] and the constant [M_PI].  IEEE 754 does
    not fix their results to the bit, so they are parameters of the
    instance; [reflect], [refract] and [createCoordinateSystem] use none of
    them. *)
Record Libm : Type := mkLibm {
  libm_cosf : float -> float;
  libm_sinf : float -> float;
  libm_tan : float -> float;
  libm_pow : float -> float -> float;
  libm_M_PI : float
}.

Definition binary32 (L : Libm) : Scalar float := {|
  s0 := S754_zero false;
  s1 := SFone float_prec float_emax;
  sadd := SFadd float_prec float_emax;
  ssub := SFsub float_prec float_emax;
  smul := SFmul float_prec float_emax;
  sdiv := SFdiv float_prec float_emax;
  sneg := SFopp;
  sqrtf := SFsqrt float_prec float_emax;
  fabs := SFabs;
  cosf := libm_cosf L;
  sinf := libm_sinf L;
  tanf := libm_tan L;
  powf := libm_pow L;
  M_PI := libm_M_PI L;
  sltb := SFltb;
  of_int := float_of_int
|}.

(** The [float] values 0, 1 and -1, the six axis directions, and a
    direction that grazes the plane of normal (0,1,0): its second
    component is [-1/8192], that is, [-2^-13]. *)
Definition zero32 : float := S754_zero false.
Definition one32 : float := SFone float_prec float_emax.
Definition minus_one32 : float := SFopp one32.

Definition unitX32 : Vec3 float := mkVec3 one32 zero32 zero32.
Definition unitY32 : Vec3 float := mkVec3 zero32 one32 zero32.
Definition unitZ32 : Vec3 float := mkVec3 zero32 zero32 one32.

Definition axes32 : list (Vec3 float) :=
  [ unitX32; unitY32; unitZ32;
    mkVec3 minus_one32 zero32 zero32;
    mkVec3 zero32 minus_one32 zero32;
    mkVec3 zero32 zero32 minus_one32 ].

Definition grazing32 : Vec3 float :=
  mkVec3 one32 (SFopp (SFdiv float_prec float_emax one32 (float_of_int 8192))) zero32.

(** ** Outcomes and the state threaded through the integrator *)

(** What a run leaves behind for an observer: every entry into [castRay]
    (with its depth), every intersection query sent to the scene and
    every slot written in the pixel buffer, in the order in which they
    happen.  The log is never read by the program. *)
Inductive Event (T : Type) : Type :=
  | EvCast (depth : Z)
  | EvIntersect (orig dir : Vec3 T)
  | EvWrite (slot : nat).
Arguments EvCast {T} depth.
Arguments EvIntersect {T} orig dir.
Arguments EvWrite {T} slot.

(** [OutOfFuel]: the recursion budget of the model ran out (the source
    would still be running).  [Fault]: the source writes outside the
    caller's pixel buffer. *)
Inductive Res (A : Type) : Type :=
  | Done (a : A)
  | OutOfFuel
  | Fault.
Arguments Done {A} a.
Arguments OutOfFuel {A}.
Arguments Fault {A}.

(** The process-wide state: the global random [generator] and the log. *)
Record St (T Gen : Type) : Type := mkSt { gen : Gen; trace : list (Event T) }.
Arguments mkSt {T Gen} gen trace.
Arguments gen {T Gen} s.
Arguments trace {T Gen} s.

Definition M (T Gen A : Type) : Type := St T Gen -> Res (A * St T Gen).

Definition ret {T Gen A : Type} (a : A) : M T Gen A := fun st => Done (a, st).

Definition bind {T Gen A B : Type} (m : M T Gen A) (k : A -> M T Gen B) : M T Gen B :=
  fun st =>
    match m st with
    | Done (a, st') => k a st'
    | OutOfFuel => OutOfFuel
    | Fault => Fault
    end.

Notation "x <- c1 ;; c2" := (bind c1 (fun x => c2))
  (at level 100, c1 at next level, right associativity).

Definition emit {T Gen : Type} (e : Event T) : M T Gen unit :=
  fun st => Done (tt, mkSt (gen st) (trace st ++ [e])).

(** The events a call of [castRay] at recursion depths between [lo] and
    [hi] may log: entries of [castRay] at those depths, and intersection
    queries; never a write to the pixel buffer. *)
Definition cast_event {T : Type} (lo hi : Z) (e : Event T) : Prop :=
  match e with
  | EvCast d => (lo <= d <= hi)%Z
  | EvIntersect _ _ => True
  | EvWrite _ => False
  end.

(** The slots written, in order, by a run that logged [evs]. *)
Definition written_slots {T : Type} (evs : list (Event T)) : list nat :=
  flat_map (fun e => match e with EvWrite k => [k] | _ => [] end) evs.

(** [emits P m]: from every state, [m] returns, and what it appends to the
    log satisfies [P] event by event. *)
Definition emits {T Gen A : Type} (P : Event T -> Prop) (m : M T Gen A) : Prop :=
  forall st, exists a st' evs,
    m st = Done (a, st') /\ trace st' = trace st ++ evs /\ Forall P evs.

(** Two outcomes of one computation started with the same generator and
    the logs [t1] and [t2]: the same value, the same generator afterwards
    and the same events appended, or the same failure. *)
Definition same_run {T Gen A : Type} (t1 t2 : list (Event T))
    (r1 r2 : Res (A * St T Gen)) : Prop :=
  match r1, r2 with
  | Done (a1, s1), Done (a2, s2) =>
    a1 = a2 /\ gen s1 = gen s2 /\
    exists evs, trace s1 = t1 ++ evs /\ trace s2 = t2 ++ evs
  | OutOfFuel, OutOfFuel => True
  | Fault, Fault => True
  | _, _ => False
  end.

(** [oblivious m]: [m] never reads the log. *)
Definition oblivious {T Gen A : Type} (m : M T Gen A) : Prop :=
  forall g t1 t2, same_run t1 t2 (m (mkSt g t1)) (m (mkSt g t2)).

(** [runs R m]: from every state [m] returns, and the states before and
    after are related by [R]. *)
Definition runs {T Gen A : Type} (R : St T Gen -> St T Gen -> Prop)
    (m : M T Gen A) : Prop :=
  forall st, exists a st', m st = Done (a, st') /\ R st st'.

(** The number of entries into [castRay] among [evs]. *)
Definition is_cast {T : Type} (e : Event T) : bool :=
  match e with EvCast _ => true | _ => false end.

Definition count_casts {T : Type} (evs : list (Event T)) : nat :=
  List.length (List.filter is_cast evs).

(** The log grows, by at most [n] entries into [castRay]. *)
Definition casts_within {T Gen : Type} (n : nat) (st st' : St T Gen) : Prop :=
  exists evs, trace st' = trace st ++ evs /\ (count_casts evs <= n)%nat.

(** The largest number of calls of [castRay] in a run that may nest [n]
    levels below its first call: each level makes at most 128 + 1 + 2
    calls. *)
Fixpoint calls_bound (n : nat) : nat :=
  match n with
  | O => 1
  | S n' => 1 + 131 * calls_bound n'
  end.

(** [for (int i = lo; ...; ++i) body], for a loop that runs [count] times. *)
Fixpoint for_loop {T Gen A : Type} (count : nat) (i : Z)
    (body : Z -> A -> M T Gen A) (a : A) : M T Gen A :=
  match count with
  | O => ret a
  | S c => a' <- body i a ;; for_loop c (i + 1)%Z body a'
  end.

(** ** 32-bit [int] *)

Definition INT_MAX : Z := 2147483647.
Definition INT_MIN : Z := -2147483648.

(** The value an [int] expression takes once reduced to 32 bits. *)
Definition wrap32 (z : Z) : Z := ((z + 2147483648) mod 4294967296 - 2147483648)%Z.

Definition int_range (z : Z) : Prop := (INT_MIN <= z <= INT_MAX)%Z.

(** ** The integrator and the frame renderer *)

(** Modelled from the spec: [Material] of the scene model (its header is
    not part of the sources at hand): four flags that may be combined
    freely, and the coefficients [castRay] reads. *)
Record Material (T : Type) : Type := mkMaterial {
  self_luminous : bool;
  diffuse : bool;
  specular : bool;
  transparent : bool;
  ka : Vec3 T;
  kd : Vec3 T;
  ks : Vec3 T;
  ns_exponent : T;
  tr_ratio : T;
  ni_optical_density : T
}.

Arguments self_luminous {T} m.
Arguments diffuse {T} m.
Arguments specular {T} m.
Arguments transparent {T} m.
Arguments ka {T} m.
Arguments kd {T} m.
Arguments ks {T} m.
Arguments ns_exponent {T} m.
Arguments tr_ratio {T} m.
Arguments ni_optical_density {T} m.
Arguments mkMaterial {T}.

(** Modelled from the spec: [Options] of Options.h (not part of the
    sources at hand), with the fields the core reads. *)
Record Options (T Matrix44 : Type) : Type := mkOptions {
  width : Z;
  height : Z;
  fov : T;
  cameraToWorld : Matrix44;
  maxDepth : Z;
  backgroundColor : Vec3 T;
  bias : T
}.

Arguments width {T Matrix44} o.
Arguments height {T Matrix44} o.
Arguments fov {T Matrix44} o.
Arguments cameraToWorld {T Matrix44} o.
Arguments maxDepth {T Matrix44} o.
Arguments backgroundColor {T Matrix44} o.
Arguments bias {T Matrix44} o.
Arguments mkOptions {T Matrix44}.

(** The collaborators of the core, whose code is not part of the sources
    at hand: the scene with its objects, the 2-vectors, the camera matrix
    and the random generator, each with the operations the core calls. *)
Class World (T : Type) : Type := {
  Scene : Type;
  Object : Type;
  Vec2 : Type;
  Matrix44 : Type;
  Gen : Type;
  (** [scene.intersect(orig, dir, tnear, index, uv, hitObject)]: [None]
      when it returns false, otherwise what it leaves in its four output
      parameters. *)
  intersect : Scene -> Vec3 T -> Vec3 T -> option (T * Z * Vec2 * Object);
  (** [hitObject.getSurfaceProperties(hitPoint, dir, index, uv, hitNormal,
      hitTexCoordinates, Color, m)]: the values of the four output
      parameters.  The material pointer is taken to be valid. *)
  getSurfaceProperties :
    Object -> Vec3 T -> Vec3 T -> Z -> Vec2 -> Vec3 T * Vec2 * Vec3 T * Material T;
  (** [Vec3f::normalize], [Matrix44f::multVecMatrix] and
      [Matrix44f::multDirMatrix] of Geometry.h. *)
  normalize : Vec3 T -> Vec3 T;
  multVecMatrix : Matrix44 -> Vec3 T -> Vec3 T;
  multDirMatrix : Matrix44 -> Vec3 T -> Vec3 T;
  (** [distribution(generator)]: one draw and the generator afterwards. *)
  draw : Gen -> T * Gen
}.

Section Integrator.
Context {T : Type} `{Scalar T} `{World T}.

Definition with_bias (o : Options T Matrix44) (b : T) : Options T Matrix44 :=
  mkOptions (width o) (height o) (fov o) (cameraToWorld o) (maxDepth o)
            (backgroundColor o) b.

#[local] Abbreviation Mon := (M T Gen).

Definition rand : Mon T :=
  fun st => let '(r, g) := draw (gen st) in Done (r, mkSt g (trace st)).

(** The intersection query, logged. *)
Definition query (scene : Scene) (orig dir : Vec3 T)
    : Mon (option (T * Z * Vec2 * Object)) :=
  _ <- emit (EvIntersect orig dir) ;;
  ret (intersect scene orig dir).

(** The number of hemisphere samples of the diffuse term. *)
Definition N_samples : nat := 128.

(** One iteration of the sampling loop of the diffuse term; [rec] is
    [castRay] one level deeper. *)
Definition diffuse_sample (rec : Vec3 T -> Vec3 T -> Mon (Vec3 T))
    (hitPoint hitNormal Nt Nb : Vec3 T) (pdf : T)
    (n : Z) (indirectLigthing : Vec3 T) : Mon (Vec3 T) :=
  r1 <- rand ;;
  r2 <- rand ;;
  let sample := uniformSampleHemisphere r1 r2 in
  let sampleWorld :=
    mkVec3 (vx sample * vx Nb + vy sample * vx hitNormal + vz sample * vx Nt)%sc
           (vx sample * vy Nb + vy sample * vy hitNormal + vz sample * vy Nt)%sc
           (vx sample * vz Nb + vy sample * vz hitNormal + vz sample * vz Nt)%sc in
  c <- rec hitPoint sampleWorld ;;
  ret (vadd indirectLigthing (vdiv (sscale r1 c) pdf)).

(** The state in which [castRay] leaves the log after its entry and its
    one intersection query. *)
Definition after_query (orig dir : Vec3 T) (depth : Z) (st : St T Gen) : St T Gen :=
  mkSt (gen st) (trace st ++ [EvCast depth; EvIntersect orig dir]).

(** *** castRay *)

(** The body of [castRay]; [castRay_rec o d k] stands for the call
    [castRay(o, d, scene, options, k)] of the function to itself. *)
Definition castRay_body (castRay_rec : Vec3 T -> Vec3 T -> Z -> Mon (Vec3 T))
    (orig dir : Vec3 T) (scene : Scene) (options : Options T Matrix44)
    (depth : Z) : Mon (Vec3 T) :=
  _ <- emit (EvCast depth) ;;
  if (depth >? maxDepth options)%Z then ret (backgroundColor options)
  else
    let hitColor := backgroundColor options in
    hit <- query scene orig dir ;;
    match hit with
    | None => ret hitColor
    | Some (tnear, index, uv, hitObject) =>
      let hitPoint := vadd orig (vscale dir tnear) in
      let '(hitNormal, hitTexCoordinates, Color, m) :=
        getSurfaceProperties hitObject hitPoint dir index uv in
      if self_luminous m then ret (vmul (ka m) Color)
      else
        hitColor <-
          (if diffuse m then
             let '(Nt, Nb) := createCoordinateSystem hitNormal in
             let pdf := (s1 / (of_int 2 * M_PI))%sc in
             indirectLigthing <-
               for_loop N_samples 0%Z
                 (diffuse_sample
                    (fun o d => castRay_rec o d (wrap32 (depth + 1)))
                    hitPoint hitNormal Nt Nb pdf)
                 (vsplat s0) ;;
             let indirectLigthing :=
               vdiv indirectLigthing (of_int (Z.of_nat N_samples)) in
             ret (vadd hitColor (vmul indirectLigthing (kd m)))
           else ret hitColor) ;;
        hitColor <-
          (if specular m then
             let Reflect := normalize (reflect dir hitNormal) in
             lightIntensity <- castRay_rec hitPoint Reflect (wrap32 (depth + 1)) ;;
             let cosineAlpha := dotProduct Reflect (vneg dir) in
             ret (vadd hitColor
                    (vscale (vmul lightIntensity (ks m))
                            (powf cosineAlpha (ns_exponent m))))
           else ret hitColor) ;;
        (if transparent m then
           let kr := tr_ratio m in
           let outside := (dotProduct dir hitNormal <? s0)%sc in
           let bias := sscale (bias options) hitNormal in
           let refractionDirection :=
             normalize (refract dir hitNormal (ni_optical_density m)) in
           refractionColor <-
             castRay_rec hitPoint refractionDirection (wrap32 (depth + 1)) ;;
           let reflectionDirection := normalize (reflect dir hitNormal) in
           reflectionColor <-
             castRay_rec hitPoint reflectionDirection (wrap32 (depth + 1)) ;;
           ret (vadd hitColor
                  (vadd (vscale reflectionColor kr)
                        (vscale refractionColor (s1 - kr)%sc)))
         else ret hitColor)
    end.

(** [castRay] with a budget of [fuel] nested calls. *)
Fixpoint castRay (fuel : nat) (orig dir : Vec3 T) (scene : Scene)
    (options : Options T Matrix44) (depth : Z) : Mon (Vec3 T) :=
  match fuel with
  | O => fun _ => OutOfFuel
  | S fuel' =>
    castRay_body (fun o d k => castRay fuel' o d scene options k)
                 orig dir scene options depth
  end.

(** *** render *)

(** [*pixels++ = v]: the buffer is the caller's array, [cur] the
    position of the moving pointer in it. *)
Definition store (pixels : list (Vec3 T)) (cur : nat) (v : Vec3 T)
    : Mon (list (Vec3 T) * nat) :=
  fun st =>
    if (cur <? List.length pixels)%nat
    then Done ((<[cur := v]> pixels, S cur), mkSt (gen st) (trace st ++ [EvWrite cur]))
    else Fault.

(** The literal [0.5]. *)
Definition half : T := (s1 / of_int 2)%sc.

(** The direction of the primary ray through pixel [(i, j)]. *)
Definition primaryDir (options : Options T Matrix44) (i j : Z) : Vec3 T :=
  let scale := tanf (fov options * half * M_PI / of_int 180)%sc in
  let imageAspectRatio := (of_int (width options) / of_int (height options))%sc in
  let x := ((of_int 2 * (of_int i + half) / of_int (width options) - s1)
            * imageAspectRatio * scale)%sc in
  let y := ((s1 - of_int 2 * (of_int j + half) / of_int (height options)) * scale)%sc in
  normalize (multDirMatrix (cameraToWorld options) (mkVec3 x y (- s1)%sc)).

Definition cameraOrigin (options : Options T Matrix44) : Vec3 T :=
  multVecMatrix (cameraToWorld options) (vsplat s0).

(** The body of the inner loop. *)
Definition render_pixel (fuel : nat) (options : Options T Matrix44) (scene : Scene)
    (orig : Vec3 T) (j i : Z) (bc : list (Vec3 T) * nat) : Mon (list (Vec3 T) * nat) :=
  let dir := primaryDir options i j in
  c <- castRay fuel orig dir scene options 0%Z ;;
  store (fst bc) (snd bc) c.

(** Returns the pixel buffer as the run leaves it. *)
Definition render (fuel : nat) (options : Options T Matrix44) (scene : Scene)
    (pixels : list (Vec3 T)) : Mon (list (Vec3 T)) :=
  let orig := cameraOrigin options in
  bc <- for_loop (Z.to_nat (height options)) 0%Z
          (fun j bc =>
             for_loop (Z.to_nat (width options)) 0%Z
               (render_pixel fuel options scene orig j) bc)
          (pixels, O) ;;
  ret (fst bc).

(** The generator after [n] draws. *)
Definition after_draws (n : nat) (g : Gen) : Gen := Nat.iter n (fun g => snd (draw g)) g.

(** Exactly [n] draws are taken between two states. *)
Definition draws_taken (n : nat) (st st' : St T Gen) : Prop :=
  gen st' = after_draws n (gen st).

(** *** What [render] is compared with *)

(** The pixel coordinates [(i, j)] of a [w] by [h] image, row by row
    from the top, each row from the left. *)
Definition row_major (w h : nat) : list (Z * Z) :=
  flat_map (fun j => map (fun i => (Z.of_nat i, Z.of_nat j)) (seq 0 w)) (seq 0 h).

(** The colors of the pixels at [coords]: each is the result of
    [castRay] at depth 0 for the primary ray of the pixel, started with an
    empty log and with the generator as the pixel before left it. *)
Fixpoint pixel_colors (fuel : nat) (options : Options T Matrix44) (scene : Scene)
    (coords : list (Z * Z)) (g : Gen) : option (list (Vec3 T) * Gen) :=
  match coords with
  | [] => Some ([], g)
  | (i, j) :: rest =>
    match castRay fuel (cameraOrigin options) (primaryDir options i j)
                  scene options 0%Z (mkSt g []) with
    | Done (c, st') =>
      match pixel_colors fuel options scene rest (gen st') with
      | Some (cs, g') => Some (c :: cs, g')
      | None => None
      end
    | _ => None
    end
  end.

End Integrator.

(** ** Mock scenes over the real numbers *)

(** Modelled from the spec: [Vec3f::normalize] of Geometry.h (not part of
    the sources at hand), here for the mock scenes only: a vector that is
    not the zero vector is divided by its length. *)
Definition normalize_R (v : Vec3 R) : Vec3 R :=
  let n := dotProduct v v in
  if Rltb 0 n then vscale v (1 / sqrt n)%R else v.

(** A scene in which every ray meets, at distance 1, a surface with
    normal (0,1,0), base color (1,1,1) and material [m]; with [None]
    the scene is empty.  The camera matrix is the identity and the
    generator is a counter that [draws] turns into numbers. *)
Definition mockWorld (m : option (Material R)) (draws : nat -> R) : World R := {|
  Scene := unit;
  Object := unit;
  Vec2 := unit;
  Matrix44 := unit;
  Gen := nat;
  intersect := fun _ _ _ =>
    match m with Some _ => Some (1%R, 0%Z, tt, tt) | None => None end;
  getSurfaceProperties := fun _ _ _ _ _ =>
    (mkVec3 0%R 1%R 0%R, tt, mkVec3 1%R 1%R 1%R,
     match m with
     | Some m => m
     | None => mkMaterial false false false false
                 (mkVec3 0 0 0)%R (mkVec3 0 0 0)%R (mkVec3 0 0 0)%R 0%R 0%R 1%R
     end);
  normalize := normalize_R;
  multVecMatrix := fun _ v => v;
  multDirMatrix := fun _ v => v;
  draw := fun g => (draws g, S g)
|}.

Definition white : Vec3 R := mkVec3 1%R 1%R 1%R.
Definition black : Vec3 R := mkVec3 0%R 0%R 0%R.

(** A lamp whose material also has every other flag set, and materials
    with no aspect, with the specular and with the diffuse aspect only. *)
Definition emissiveMaterial : Material R :=
  mkMaterial true true true true white white white 1%R (1 / 2)%R (3 / 2)%R.
Definition plainMaterial : Material R :=
  mkMaterial false false false false white white white 1%R (1 / 2)%R (3 / 2)%R.
Definition mirrorMaterial : Material R :=
  mkMaterial false false true false white white white 1%R (1 / 2)%R (3 / 2)%R.
Definition diffuseMaterial : Material R :=
  mkMaterial false true false false white white white 1%R (1 / 2)%R (3 / 2)%R.

Definition mockOptions (w h depthLimit : Z) : Options R unit :=
  mkOptions w h 90%R tt depthLimit white (1 / 10000)%R.

Definition st0 : St R nat := mkSt O [].

Definition zeroDraws : nat -> R := fun _ => 0%R.

(** A hall of mirrors, an empty scene, a lamp and a surface without any
    aspect. *)
Definition mirrorWorld : World R := mockWorld (Some mirrorMaterial) zeroDraws.
Definition emptyWorld : World R := mockWorld None zeroDraws.
Definition lampWorld : World R := mockWorld (Some emissiveMaterial) zeroDraws.
Definition plainWorld : World R := mockWorld (Some plainMaterial) zeroDraws.

(** Glass: a surface with the transparent aspect only and an optical
    density of 3/2. *)
Definition glassMaterial : Material R :=
  mkMaterial false false false true white white white 1%R (1 / 2)%R (3 / 2)%R.
Definition glassWorld : World R := mockWorld (Some glassMaterial) zeroDraws.

(** A diffuse surface everywhere, with a generator whose first 256 draws
    are 0 and whose later draws are 1/2. *)
Definition lateDraws : nat -> R := fun g => if (g <? 256)%nat then 0%R else (1 / 2)%R.
Definition diffuseWorld : World R := mockWorld (Some diffuseMaterial) lateDraws.

(** A two by one image with [maxDepth = 0]. *)
Definition leafOptions : Options R unit := mockOptions 2 1 0.

Definition unitX : Vec3 R := mkVec3 1%R 0%R 0%R.
Definition unitY : Vec3 R := mkVec3 0%R 1%R 0%R.
Definition downward : Vec3 R := mkVec3 0%R (-1)%R 0%R.

(** ** The monad: sequencing and the log *)

Section MonadFacts.
Context {T Gen : Type}.
Implicit Types (P : Event T -> Prop) (st : St T Gen).

Lemma emits_ret {A} P (a : A) : emits (Gen := Gen) P (ret a).
Proof.
  intros st. exists a, st, []. rewrite app_nil_r. auto.
Qed.

Lemma emits_bind {A B} P (m : M T Gen A) (k : A -> M T Gen B) :
  emits P m -> (forall a, emits P (k a)) -> emits P (bind m k).
Proof.
  intros Hm Hk st.
  destruct (Hm st) as (a & st1 & evs1 & E1 & Ht1 & HP1).
  destruct (Hk a st1) as (b & st2 & evs2 & E2 & Ht2 & HP2).
  exists b, st2, (evs1 ++ evs2). unfold bind. rewrite E1. split; [exact E2|].
  split.
  - rewrite Ht2, Ht1, app_assoc. reflexivity.
  - apply Forall_app; auto.
Qed.

Lemma emits_emit P (e : Event T) : P e -> emits (Gen := Gen) P (emit e).
Proof.
  intros He st. exists tt, (mkSt (gen st) (trace st ++ [e])), [e].
  repeat split; auto.
Qed.

Lemma emits_mono {A} P P' (m : M T Gen A) :
  (forall e, P e -> P' e) -> emits P m -> emits P' m.
Proof.
  intros Himp Hm st. destruct (Hm st) as (a & st1 & evs & E & Ht & HP).
  exists a, st1, evs. repeat split; auto.
  exact (List.Forall_impl _ Himp HP).
Qed.

Lemma emits_for_loop {A} P (body : Z -> A -> M T Gen A) :
  (forall i a, emits P (body i a)) ->
  forall count i a, emits P (for_loop count i body a).
Proof.
  intros Hbody count. induction count as [|c IH]; intros i a; cbn [for_loop].
  - apply emits_ret.
  - apply emits_bind; [apply Hbody | intros a'; apply IH].
Qed.

Lemma written_slots_app (evs1 evs2 : list (Event T)) :
  written_slots (evs1 ++ evs2) = written_slots evs1 ++ written_slots evs2.
Proof. unfold written_slots. apply flat_map_app. Qed.

Lemma written_slots_cast lo hi (evs : list (Event T)) :
  Forall (cast_event lo hi) evs -> written_slots evs = [].
Proof.
  induction 1 as [|e evs He _ IH]; [reflexivity|].
  destruct e; cbn in *; try contradiction; exact IH.
Qed.

Lemma bind_ext {A B} (m1 m2 : M T Gen A) (k1 k2 : A -> M T Gen B) st :
  m1 st = m2 st -> (forall a st', k1 a st' = k2 a st') ->
  bind m1 k1 st = bind m2 k2 st.
Proof.
  intros Hm Hk. unfold bind. rewrite Hm.
  destruct (m2 st) as [[a st']| |]; auto.
Qed.

Lemma for_loop_ext {A} (body1 body2 : Z -> A -> M T Gen A) :
  (forall i a st, body1 i a st = body2 i a st) ->
  forall count i a st, for_loop count i body1 a st = for_loop count i body2 a st.
Proof.
  intros Hb count. induction count as [|c IH]; intros i a st; cbn [for_loop].
  - reflexivity.
  - apply bind_ext; [apply Hb | intros; apply IH].
Qed.

Lemma oblivious_ret {A} (a : A) : oblivious (T := T) (Gen := Gen) (ret a).
Proof.
  intros g t1 t2. cbn. repeat split. exists []. rewrite !app_nil_r. auto.
Qed.

Lemma oblivious_fail {A} (r : Res (A * St T Gen)) :
  r = OutOfFuel \/ r = Fault -> oblivious (fun _ => r).
Proof. intros [-> | ->] g t1 t2; exact I. Qed.

Lemma oblivious_emit (e : Event T) : oblivious (Gen := Gen) (emit e).
Proof.
  intros g t1 t2. cbn. repeat split. exists [e]. auto.
Qed.

Lemma oblivious_bind {A B} (m : M T Gen A) (k : A -> M T Gen B) :
  oblivious m -> (forall a, oblivious (k a)) -> oblivious (bind m k).
Proof.
  intros Hm Hk g t1 t2. unfold bind. specialize (Hm g t1 t2).
  destruct (m (mkSt g t1)) as [[a1 [g1 tr1]]| |],
           (m (mkSt g t2)) as [[a2 [g2 tr2]]| |];
    cbn in Hm; try contradiction; try exact I.
  destruct Hm as (-> & Hg & evs & -> & ->). cbn in Hg. subst g2.
  specialize (Hk a2 g1 (t1 ++ evs) (t2 ++ evs)).
  destruct (k a2 (mkSt g1 (t1 ++ evs))) as [[b1 s1]| |],
           (k a2 (mkSt g1 (t2 ++ evs))) as [[b2 s2]| |];
    cbn in Hk |- *; try contradiction; try exact I.
  destruct Hk as (-> & Hg & evs' & E1 & E2).
  repeat split; auto. exists (evs ++ evs').
  rewrite E1, E2, !app_assoc. auto.
Qed.

Lemma oblivious_for_loop {A} (body : Z -> A -> M T Gen A) :
  (forall i a, oblivious (body i a)) ->
  forall count i a, oblivious (for_loop count i body a).
Proof.
  intros Hb count. induction count as [|c IH]; intros i a; cbn [for_loop].
  - apply oblivious_ret.
  - apply oblivious_bind; [apply Hb | intros; apply IH].
Qed.
End MonadFacts.

Lemma wrap32_id (z : Z) : int_range z -> wrap32 z = z.
Proof.
  unfold int_range, INT_MIN, INT_MAX, wrap32. intros Hz.
  rewrite Z.mod_small by lia. lia.
Qed.

Lemma wrap32_range (z : Z) : int_range (wrap32 z).
Proof.
  unfold int_range, INT_MIN, INT_MAX, wrap32.
  pose proof (Z.mod_pos_bound (z + 2147483648) 4294967296 ltac:(lia)). lia.
Qed.

(** ** The integrator: terminal states *)

Section IntegratorFacts.
Context {T : Type} `{Scalar T} `{World T}.

Lemma castRay_S (fuel : nat) orig dir scene options depth :
  castRay (S fuel) orig dir scene options depth
  = castRay_body (fun o d k => castRay fuel o d scene options k)
                 orig dir scene options depth.
Proof. reflexivity. Qed.

(** A call past the depth limit, as the levels above it see it. *)
Lemma castRay_past_limit (fuel : nat) orig dir scene options depth st :
  (depth > maxDepth options)%Z ->
  castRay (S fuel) orig dir scene options depth st
  = Done (backgroundColor options, mkSt (gen st) (trace st ++ [EvCast depth])).
Proof.
  intros Hd. rewrite castRay_S. unfold castRay_body, bind, emit.
  destruct (Z.gtb_spec depth (maxDepth options)) as [_|Hle]; [reflexivity | lia].
Qed.

(** C1: past the depth limit [castRay] returns the background color; the
    only thing it leaves in the log is its own entry, so no intersection
    query is made, whatever the scene. *)
Theorem castRay_depth_limit :
  forall (fuel : nat) (orig dir : Vec3 T) (scene : Scene)
         (options : Options T Matrix44) (depth : Z) (st : St T Gen),
    (depth > maxDepth options)%Z ->
    castRay (S fuel) orig dir scene options depth st
    = Done (backgroundColor options, mkSt (gen st) (trace st ++ [EvCast depth])).
Proof.
  intros fuel orig dir scene options depth st Hd.
  cbn [castRay]; unfold castRay_body. unfold bind, emit.
  destruct (Z.gtb_spec depth (maxDepth options)) as [_|Hle]; [reflexivity | lia].
Qed.

(** C3: a hit on a self-luminous material returns [ka * Color]; the log
    gains the entry of this call and its one intersection query, and no
    entry of a further [castRay]. *)
Theorem castRay_emissive :
  forall (fuel : nat) (orig dir : Vec3 T) (scene : Scene)
         (options : Options T Matrix44) (depth : Z) (st : St T Gen)
         (tnear : T) (index : Z) (uv : Vec2) (hitObject : Object)
         (hitNormal : Vec3 T) (hitTexCoordinates : Vec2) (Color : Vec3 T)
         (m : Material T),
    (depth <= maxDepth options)%Z ->
    intersect scene orig dir = Some (tnear, index, uv, hitObject) ->
    getSurfaceProperties hitObject (vadd orig (vscale dir tnear)) dir index uv
      = (hitNormal, hitTexCoordinates, Color, m) ->
    self_luminous m = true ->
    castRay (S fuel) orig dir scene options depth st
    = Done (vmul (ka m) Color, after_query orig dir depth st).
Proof.
  intros fuel orig dir scene options depth st tnear index uv hitObject
         hitNormal tc Color m Hd Hhit Hsurf Hlum.
  cbn [castRay]; unfold castRay_body. unfold bind at 1. unfold emit at 1.
  destruct (Z.gtb_spec depth (maxDepth options)) as [Hgt|_]; [lia|].
  unfold bind at 1. unfold query at 1. unfold bind at 1. unfold emit at 1.
  unfold ret at 1. cbn [trace gen].
  rewrite <- app_assoc. cbn [app]. fold (after_query orig dir depth st).
  rewrite Hhit. cbv zeta. rewrite Hsurf, Hlum. reflexivity.
Qed.

(** C4: within the depth limit, a miss returns the background color, and
    so does a hit on a material with none of the four flags set. *)
Theorem castRay_miss_or_plain :
  forall (fuel : nat) (orig dir : Vec3 T) (scene : Scene)
         (options : Options T Matrix44) (depth : Z) (st : St T Gen),
    (depth <= maxDepth options)%Z ->
    (intersect scene orig dir = None \/
     exists tnear index uv hitObject hitNormal hitTexCoordinates Color m,
       intersect scene orig dir = Some (tnear, index, uv, hitObject) /\
       getSurfaceProperties hitObject (vadd orig (vscale dir tnear)) dir index uv
         = (hitNormal, hitTexCoordinates, Color, m) /\
       self_luminous m = false /\ diffuse m = false /\
       specular m = false /\ transparent m = false) ->
    castRay (S fuel) orig dir scene options depth st
    = Done (backgroundColor options, after_query orig dir depth st).
Proof.
  intros fuel orig dir scene options depth st Hd Hcase.
  cbn [castRay]; unfold castRay_body. unfold bind at 1. unfold emit at 1.
  destruct (Z.gtb_spec depth (maxDepth options)) as [Hgt|_]; [lia|].
  unfold bind at 1. unfold query at 1. unfold bind at 1. unfold emit at 1.
  unfold ret at 1. cbn [trace gen].
  rewrite <- app_assoc. cbn [app]. fold (after_query orig dir depth st).
  destruct Hcase as [Hmiss | (tnear & index & uv & hitObject & hitNormal & tc
                               & Color & m & Hhit & Hsurf & Hl & Hdf & Hs & Ht)].
  - rewrite Hmiss. reflexivity.
  - rewrite Hhit. cbv zeta. rewrite Hsurf, Hl, Hdf, Hs, Ht. reflexivity.
Qed.

(** *** What one level of [castRay] asks of the levels below *)

Lemma castRay_body_bias rec1 rec2 orig dir scene options b depth st :
  ((depth <= maxDepth options)%Z ->
   forall o d st', rec1 o d (wrap32 (depth + 1)) st' = rec2 o d (wrap32 (depth + 1)) st') ->
  castRay_body rec1 orig dir scene (with_bias options b) depth st
  = castRay_body rec2 orig dir scene options depth st.
Proof.
  intros Hrec. unfold castRay_body. cbn [with_bias maxDepth backgroundColor].
  apply bind_ext; [reflexivity | intros _ st1].
  destruct (Z.gtb_spec depth (maxDepth options)) as [Hgt|Hle]; [reflexivity|].
  specialize (Hrec Hle).
  apply bind_ext; [reflexivity|].
  intros [[[[tnear index] uv] hitObject]|] st2; [|reflexivity].
  cbv zeta.
  destruct (getSurfaceProperties hitObject (vadd orig (vscale dir tnear)) dir index uv)
    as [[[hitNormal tc] Color] m].
  destruct (self_luminous m); [reflexivity|].
  apply bind_ext.
  { destruct (diffuse m); [|reflexivity].
    destruct (createCoordinateSystem hitNormal) as [Nt Nb].
    apply bind_ext; [|reflexivity].
    apply for_loop_ext. intros i acc st3. unfold diffuse_sample.
    apply bind_ext; [reflexivity | intros r1 st4].
    apply bind_ext; [reflexivity | intros r2 st5].
    apply bind_ext; [apply Hrec | reflexivity]. }
  intros hitColor1 st3. apply bind_ext.
  { destruct (specular m); [|reflexivity].
    apply bind_ext; [apply Hrec | reflexivity]. }
  intros hitColor2 st4.
  destruct (transparent m); [|reflexivity].
  apply bind_ext; [apply Hrec | intros refractionColor st5].
  apply bind_ext; [apply Hrec | reflexivity].
Qed.

Lemma with_bias_same (options : Options T Matrix44) :
  with_bias options (bias options) = options.
Proof. destruct options; reflexivity. Qed.

(** The body of [castRay] calls the function only at [depth + 1]. *)
Lemma castRay_body_next_depth rec1 rec2 orig dir scene options depth st :
  ((depth <= maxDepth options)%Z ->
   forall o d st', rec1 o d (wrap32 (depth + 1)) st' = rec2 o d (wrap32 (depth + 1)) st') ->
  castRay_body rec1 orig dir scene options depth st
  = castRay_body rec2 orig dir scene options depth st.
Proof.
  intros Hrec. rewrite <- (with_bias_same options) at 1.
  apply castRay_body_bias. exact Hrec.
Qed.

(** *** Termination *)

Lemma emits_rand P : emits P rand.
Proof.
  intros st. unfold rand. destruct (draw (gen st)) as [r g] eqn:E.
  exists r, (mkSt g (trace st)), []. rewrite app_nil_r. auto.
Qed.

Lemma emits_query P scene orig dir :
  P (EvIntersect orig dir) -> emits P (query scene orig dir).
Proof.
  intros HP. unfold query.
  apply emits_bind; [apply emits_emit; exact HP | intros _; apply emits_ret].
Qed.

Lemma emits_diffuse_sample P rec hitPoint hitNormal Nt Nb pdf n acc :
  (forall o d, emits P (rec o d)) ->
  emits P (diffuse_sample rec hitPoint hitNormal Nt Nb pdf n acc).
Proof.
  intros Hrec. unfold diffuse_sample.
  apply emits_bind; [apply emits_rand | intros r1].
  apply emits_bind; [apply emits_rand | intros r2].
  apply emits_bind; [apply Hrec | intros c; apply emits_ret].
Qed.

(** One level of [castRay] returns as soon as the calls it makes to
    itself do. *)
Lemma emits_castRay_body P rec orig dir scene options depth :
  P (EvCast depth) -> P (EvIntersect orig dir) ->
  ((depth <= maxDepth options)%Z ->
   forall o d, emits P (rec o d (wrap32 (depth + 1)))) ->
  emits P (castRay_body rec orig dir scene options depth).
Proof.
  intros Hc Hq Hrec. unfold castRay_body.
  apply emits_bind; [apply emits_emit; exact Hc | intros _].
  destruct (Z.gtb_spec depth (maxDepth options)) as [Hgt|Hle];
    [apply emits_ret|].
  specialize (Hrec Hle).
  apply emits_bind; [apply emits_query; exact Hq|].
  intros [[[[tnear index] uv] hitObject]|]; [|apply emits_ret].
  cbv zeta.
  destruct (getSurfaceProperties hitObject (vadd orig (vscale dir tnear)) dir index uv)
    as [[[hitNormal tc] Color] m].
  destruct (self_luminous m); [apply emits_ret|].
  apply emits_bind.
  { destruct (diffuse m); [|apply emits_ret].
    destruct (createCoordinateSystem hitNormal) as [Nt Nb].
    apply emits_bind; [|intros; apply emits_ret].
    apply emits_for_loop. intros i acc.
    apply emits_diffuse_sample. intros o d. apply Hrec. }
  intros hitColor1. apply emits_bind.
  { destruct (specular m); [|apply emits_ret].
    apply emits_bind; [apply Hrec | intros; apply emits_ret]. }
  intros hitColor2.
  destruct (transparent m); [|apply emits_ret].
  apply emits_bind; [apply Hrec | intros refractionColor].
  apply emits_bind; [apply Hrec | intros; apply emits_ret].
Qed.

Lemma castRay_emits :
  forall (scene : Scene) (options : Options T Matrix44),
    (maxDepth options < INT_MAX)%Z ->
    forall (fuel : nat) (orig dir : Vec3 T) (depth : Z),
      int_range depth ->
      (Z.to_nat (maxDepth options + 1 - depth) < fuel)%nat ->
      emits (cast_event depth (Z.max depth (maxDepth options + 1)))
            (castRay fuel orig dir scene options depth).
Proof.
  intros scene options Hmax fuel.
  induction fuel as [|fuel IH]; intros orig dir depth Hrange Hfuel; [lia|].
  cbn [castRay]. apply emits_castRay_body.
  - cbn. lia.
  - exact I.
  - intros Hle o d.
    assert (Hw : wrap32 (depth + 1) = (depth + 1)%Z).
    { apply wrap32_id. unfold int_range, INT_MIN, INT_MAX in *. lia. }
    rewrite Hw.
    eapply emits_mono; [|apply IH].
    + intros [d'| |k]; cbn; lia.
    + unfold int_range, INT_MIN, INT_MAX in *. lia.
    + lia.
Qed.

(** C2, amended: when [options.maxDepth] is below the largest [int],
    [castRay] returns from every state and for every [int] depth, as
    soon as the budget of nested calls exceeds [maxDepth + 1 - depth].
    Its body calls the function at [depth + 1] and at no other depth, and
    every call in the run is logged at a depth between [depth] and
    [maxDepth + 1], so [maxDepth] bounds the depth of the recursion. *)
Theorem castRay_terminates :
  forall (scene : Scene) (options : Options T Matrix44)
         (orig dir : Vec3 T) (depth : Z) (st : St T Gen) (fuel : nat),
    (maxDepth options < INT_MAX)%Z ->
    int_range depth ->
    (Z.to_nat (maxDepth options + 1 - depth) < fuel)%nat ->
    (forall (rec1 rec2 : Vec3 T -> Vec3 T -> Z -> M T Gen (Vec3 T)) (st1 : St T Gen),
        (forall o d s, rec1 o d (depth + 1)%Z s = rec2 o d (depth + 1)%Z s) ->
        castRay_body rec1 orig dir scene options depth st1
        = castRay_body rec2 orig dir scene options depth st1) /\
    exists (c : Vec3 T) (st' : St T Gen) (evs : list (Event T)),
      castRay fuel orig dir scene options depth st = Done (c, st') /\
      trace st' = trace st ++ evs /\
      Forall (cast_event depth (Z.max depth (maxDepth options + 1))) evs.
Proof.
  intros scene options orig dir depth st fuel Hmax Hrange Hfuel. split.
  - intros rec1 rec2 st1 Hrec. apply castRay_body_next_depth.
    intros Hle o d s.
    rewrite wrap32_id by (unfold int_range, INT_MIN, INT_MAX in *; lia).
    apply Hrec.
  - apply castRay_emits; assumption.
Qed.

(** *** The log is not read *)

Lemma oblivious_rand : oblivious rand.
Proof.
  intros g t1 t2. unfold rand. cbn. destruct (draw g) as [r g'].
  cbn. repeat split. exists []. rewrite !app_nil_r. auto.
Qed.

Lemma oblivious_query scene orig dir : oblivious (query scene orig dir).
Proof.
  unfold query.
  apply oblivious_bind; [apply oblivious_emit | intros _; apply oblivious_ret].
Qed.

Lemma oblivious_castRay_body rec orig dir scene options depth :
  (forall o d k, oblivious (rec o d k)) ->
  oblivious (castRay_body rec orig dir scene options depth).
Proof.
  intros Hrec. unfold castRay_body.
  apply oblivious_bind; [apply oblivious_emit | intros _].
  destruct (depth >? maxDepth options)%Z; [apply oblivious_ret|].
  apply oblivious_bind; [apply oblivious_query|].
  intros [[[[tnear index] uv] hitObject]|]; [|apply oblivious_ret].
  cbv zeta.
  destruct (getSurfaceProperties hitObject (vadd orig (vscale dir tnear)) dir index uv)
    as [[[hitNormal tc] Color] m].
  destruct (self_luminous m); [apply oblivious_ret|].
  apply oblivious_bind.
  { destruct (diffuse m); [|apply oblivious_ret].
    destruct (createCoordinateSystem hitNormal) as [Nt Nb].
    apply oblivious_bind; [|intros; apply oblivious_ret].
    apply oblivious_for_loop. intros i acc. unfold diffuse_sample.
    apply oblivious_bind; [apply oblivious_rand | intros r1].
    apply oblivious_bind; [apply oblivious_rand | intros r2].
    apply oblivious_bind; [apply Hrec | intros; apply oblivious_ret]. }
  intros hitColor1. apply oblivious_bind.
  { destruct (specular m); [|apply oblivious_ret].
    apply oblivious_bind; [apply Hrec | intros; apply oblivious_ret]. }
  intros hitColor2.
  destruct (transparent m); [|apply oblivious_ret].
  apply oblivious_bind; [apply Hrec | intros refractionColor].
  apply oblivious_bind; [apply Hrec | intros; apply oblivious_ret].
Qed.

Lemma oblivious_castRay fuel :
  forall orig dir scene options depth,
    oblivious (castRay fuel orig dir scene options depth).
Proof.
  induction fuel as [|fuel IH]; intros orig dir scene options depth; cbn [castRay].
  - apply oblivious_fail. auto.
  - apply oblivious_castRay_body. intros o d k. apply IH.
Qed.

(** *** The bias *)

Lemma castRay_bias fuel :
  forall orig dir scene options b depth st,
    castRay fuel orig dir scene (with_bias options b) depth st
    = castRay fuel orig dir scene options depth st.
Proof.
  induction fuel as [|fuel IH]; intros orig dir scene options b depth st;
    cbn [castRay]; [reflexivity|].
  apply castRay_body_bias. intros _ o d st'. apply IH.
Qed.

(** C10: [castRay] and [render] return the same result, and leave the
    same state, whatever the value of [options.bias]. *)
Theorem bias_irrelevant :
  forall (fuel : nat) (orig dir : Vec3 T) (scene : Scene)
         (options : Options T Matrix44) (b : T) (depth : Z)
         (pixels : list (Vec3 T)) (st : St T Gen),
    castRay fuel orig dir scene (with_bias options b) depth st
    = castRay fuel orig dir scene options depth st /\
    render fuel (with_bias options b) scene pixels st
    = render fuel options scene pixels st.
Proof.
  intros fuel orig dir scene options b depth pixels st. split.
  - apply castRay_bias.
  - unfold render. apply bind_ext; [|reflexivity].
    apply for_loop_ext. intros j bc st1.
    apply for_loop_ext. intros i bc' st2.
    unfold render_pixel. apply bind_ext; [|reflexivity].
    apply (castRay_bias fuel (cameraOrigin options) (primaryDir options i j)).
Qed.

(** *** render *)

Lemma pixel_colors_app fuel options scene coords1 coords2 g cs1 g1 cs2 g2 :
  pixel_colors fuel options scene coords1 g = Some (cs1, g1) ->
  pixel_colors fuel options scene coords2 g1 = Some (cs2, g2) ->
  pixel_colors fuel options scene (coords1 ++ coords2) g = Some (cs1 ++ cs2, g2).
Proof.
  revert g cs1 g1.
  induction coords1 as [|[i j] rest IH]; intros g cs1 g1 H1 H2; cbn in *.
  - inversion H1; subst. exact H2.
  - destruct (castRay fuel (cameraOrigin options) (primaryDir options i j)
                      scene options 0 (mkSt g [])) as [[c st']| |];
      try discriminate.
    destruct (pixel_colors fuel options scene rest (gen st')) as [[cs g']|] eqn:E;
      try discriminate.
    inversion H1; subst.
    rewrite (IH _ _ _ E H2). reflexivity.
Qed.

Lemma pixel_colors_length fuel options scene coords :
  forall g cs g',
    pixel_colors fuel options scene coords g = Some (cs, g') ->
    List.length cs = List.length coords.
Proof.
  induction coords as [|[i j] rest IH]; intros g cs g' Hc; cbn in *.
  - inversion Hc. reflexivity.
  - destruct (castRay fuel (cameraOrigin options) (primaryDir options i j)
                      scene options 0 (mkSt g [])) as [[c st']| |];
      try discriminate.
    destruct (pixel_colors fuel options scene rest (gen st')) as [[cs0 g0]|] eqn:E;
      try discriminate.
    inversion Hc; subst. cbn. f_equal. eapply IH; eauto.
Qed.

Lemma row_major_length w h : List.length (row_major w h) = (h * w)%nat.
Proof.
  unfold row_major. generalize 0%nat at 2.
  induction h as [|h IH]; intros j0; cbn [seq flat_map]; [reflexivity|].
  rewrite length_app, length_map, length_seq, IH. reflexivity.
Qed.

Section RenderAny.
Variables (fuel : nat) (options : Options T Matrix44) (scene : Scene).

(** What the loops of [render] need of [castRay] on a primary ray: the
    run returns, writes no pixel, and its color and generator do not
    depend on the log it started with. *)
Hypothesis Hprim :
  forall (dir : Vec3 T) (st : St T Gen),
    exists c st1 evs st1',
      castRay fuel (cameraOrigin options) dir scene options 0 st = Done (c, st1) /\
      trace st1 = trace st ++ evs /\ written_slots evs = [] /\
      castRay fuel (cameraOrigin options) dir scene options 0 (mkSt (gen st) [])
      = Done (c, st1') /\
      gen st1' = gen st1.

(** The inner loop over the pixels of row [j], from column [i0]. *)
Lemma render_row_any j :
  forall (n i0 : nat) (buf : list (Vec3 T)) (cur : nat) (st : St T Gen),
    (cur + n <= List.length buf)%nat ->
    exists cs st' evs,
      for_loop n (Z.of_nat i0)
        (render_pixel fuel options scene (cameraOrigin options) j) (buf, cur) st
      = Done ((take cur buf ++ cs ++ drop (cur + n) buf, (cur + n)%nat), st') /\
      pixel_colors fuel options scene
        (map (fun i => (Z.of_nat i, j)) (seq i0 n)) (gen st) = Some (cs, gen st') /\
      trace st' = trace st ++ evs /\
      written_slots evs = seq cur n.
Proof using Hprim.
  induction n as [|n IH]; intros i0 buf cur st Hlen.
  - exists [], st, []. cbn. rewrite Nat.add_0_r, app_nil_r, take_drop. auto.
  - cbn [for_loop seq map pixel_colors]. unfold bind at 1.
    unfold render_pixel at 1. unfold bind at 1. cbn [fst snd].
    destruct (Hprim (primaryDir options (Z.of_nat i0) j) st)
      as (c & st1 & evs1 & st1' & E1 & Ht1 & Hw1 & E1' & Hg1).
    rewrite E1, E1'. unfold store.
    destruct (Nat.ltb_spec cur (List.length buf)) as [Hlt|Hge]; [|lia].
    set (st2 := mkSt (gen st1) (trace st1 ++ [EvWrite cur])).
    replace (Z.of_nat i0 + 1)%Z with (Z.of_nat (S i0)) by lia.
    destruct (IH (S i0) (<[cur := c]> buf) (S cur) st2) as (cs & st' & evs & E & Hp & Ht & Hw).
    { rewrite length_insert. lia. }
    exists (c :: cs), st', (evs1 ++ [EvWrite cur] ++ evs).
    rewrite E. split; [|split; [|split]].
    + do 3 f_equal; [|lia].
      rewrite (take_S_r _ _ c) by (apply list_lookup_insert_eq; exact Hlt).
      rewrite take_insert_ge by lia.
      rewrite drop_insert_lt by lia.
      rewrite <- app_assoc. cbn [app].
      replace (S cur + n)%nat with (cur + S n)%nat by lia. reflexivity.
    + rewrite Hg1. change (gen st1) with (gen st2). rewrite Hp. reflexivity.
    + rewrite Ht. unfold st2. cbn [trace]. rewrite Ht1, <- !app_assoc. reflexivity.
    + rewrite !written_slots_app, Hw1, Hw. reflexivity.
Qed.

(** The outer loop over the rows, from row [j0]. *)
Lemma render_rows_any (w : nat) :
  forall (h j0 : nat) (buf : list (Vec3 T)) (cur : nat) (st : St T Gen),
    (cur + h * w <= List.length buf)%nat ->
    exists cs st' evs,
      for_loop h (Z.of_nat j0)
        (fun j bc =>
           for_loop w 0%Z
             (render_pixel fuel options scene (cameraOrigin options) j) bc)
        (buf, cur) st
      = Done ((take cur buf ++ cs ++ drop (cur + h * w) buf, (cur + h * w)%nat), st') /\
      pixel_colors fuel options scene
        (flat_map (fun j => map (fun i => (Z.of_nat i, Z.of_nat j)) (seq 0 w))
                  (seq j0 h))
        (gen st) = Some (cs, gen st') /\
      trace st' = trace st ++ evs /\
      written_slots evs = seq cur (h * w).
Proof using Hprim.
  induction h as [|h IH]; intros j0 buf cur st Hlen.
  - exists [], st, []. cbn. rewrite Nat.add_0_r, app_nil_r, take_drop. auto.
  - cbn [for_loop seq flat_map]. unfold bind at 1.
    destruct (render_row_any (Z.of_nat j0) w 0 buf cur st)
      as (cs1 & st1 & evs1 & E1 & Hp1 & Ht1 & Hw1); [lia|].
    change (Z.of_nat 0) with 0%Z in E1. rewrite E1.
    replace (Z.of_nat j0 + 1)%Z with (Z.of_nat (S j0)) by lia.
    set (buf1 := take cur buf ++ cs1 ++ drop (cur + w) buf).
    assert (Hlen1 : List.length cs1 = w).
    { rewrite (pixel_colors_length _ _ _ _ _ _ _ Hp1), length_map, length_seq.
      reflexivity. }
    assert (Hbuf1 : List.length buf1 = List.length buf).
    { unfold buf1. rewrite !length_app, length_take, length_drop. lia. }
    destruct (IH (S j0) buf1 (cur + w)%nat st1)
      as (cs & st' & evs & E & Hp & Ht & Hw); [lia|].
    exists (cs1 ++ cs), st', (evs1 ++ evs).
    rewrite E. split; [|split; [|split]].
    + do 3 f_equal; [|lia].
      assert (Htk : take (cur + w) buf1 = take cur buf ++ cs1).
      { unfold buf1. rewrite app_assoc. apply take_app_length'.
        rewrite length_app, length_take. lia. }
      assert (Hdr : drop (cur + w + h * w) buf1 = drop (cur + S h * w) buf).
      { unfold buf1. rewrite app_assoc, drop_app_ge
          by (rewrite length_app, length_take; lia).
        rewrite drop_drop. f_equal.
        rewrite length_app, length_take. lia. }
      rewrite Htk, Hdr, <- !app_assoc. reflexivity.
    + eapply pixel_colors_app; eauto.
    + rewrite Ht, Ht1, <- app_assoc. reflexivity.
    + rewrite written_slots_app, Hw1, Hw.
      replace (S h * w)%nat with (w + h * w)%nat by lia.
      rewrite seq_app. reflexivity.
Qed.
(** On a buffer that ends before the loop does, the inner loop writes
    past the end. *)
Lemma render_row_fault j :
  forall (n i0 : nat) (buf : list (Vec3 T)) (cur : nat) (st : St T Gen),
    (cur <= List.length buf < cur + n)%nat ->
    for_loop n (Z.of_nat i0)
      (render_pixel fuel options scene (cameraOrigin options) j) (buf, cur) st
    = Fault.
Proof using Hprim.
  induction n as [|n IH]; intros i0 buf cur st Hlen; [lia|].
  cbn [for_loop]. unfold bind at 1.
  unfold render_pixel at 1. unfold bind at 1. cbn [fst snd].
  destruct (Hprim (primaryDir options (Z.of_nat i0) j) st)
    as (c & st1 & evs1 & st1' & E1 & _).
  rewrite E1. unfold store.
  destruct (Nat.ltb_spec cur (List.length buf)) as [Hlt|Hge]; [|reflexivity].
  replace (Z.of_nat i0 + 1)%Z with (Z.of_nat (S i0)) by lia.
  apply IH. rewrite length_insert. lia.
Qed.

Lemma render_rows_fault (w : nat) :
  forall (h j0 : nat) (buf : list (Vec3 T)) (cur : nat) (st : St T Gen),
    (cur <= List.length buf < cur + h * w)%nat ->
    for_loop h (Z.of_nat j0)
      (fun j bc =>
         for_loop w 0%Z
           (render_pixel fuel options scene (cameraOrigin options) j) bc)
      (buf, cur) st
    = Fault.
Proof using Hprim.
  induction h as [|h IH]; intros j0 buf cur st Hlen; [lia|].
  cbn [for_loop]. unfold bind at 1.
  destruct (Nat.le_gt_cases (cur + w) (List.length buf)) as [Hfit|Hshort].
  - destruct (render_row_any (Z.of_nat j0) w 0 buf cur st Hfit)
      as (cs1 & st1 & evs1 & E1 & Hp1 & _).
    change (Z.of_nat 0) with 0%Z in E1. rewrite E1.
    replace (Z.of_nat j0 + 1)%Z with (Z.of_nat (S j0)) by lia.
    apply IH.
    assert (Hlen1 : List.length cs1 = w).
    { rewrite (pixel_colors_length _ _ _ _ _ _ _ Hp1), length_map, length_seq.
      reflexivity. }
    rewrite !length_app, length_take, length_drop. lia.
  - pose proof (render_row_fault (Z.of_nat j0) w 0 buf cur st ltac:(lia)) as E1.
    change (Z.of_nat 0) with 0%Z in E1. rewrite E1. reflexivity.
Qed.
End RenderAny.

Section Render.
Variables (fuel : nat) (options : Options T Matrix44) (scene : Scene).
Hypothesis Hmax : (maxDepth options < INT_MAX)%Z.
Hypothesis Hfuel : (Z.to_nat (maxDepth options + 1) < fuel)%nat.

(** One primary ray: the run returns, writes no pixel, and its color
    and generator do not depend on the log it started with. *)
Lemma castRay_primary orig dir st :
  exists c st1 evs st1',
    castRay fuel orig dir scene options 0 st = Done (c, st1) /\
    trace st1 = trace st ++ evs /\ written_slots evs = [] /\
    castRay fuel orig dir scene options 0 (mkSt (gen st) []) = Done (c, st1') /\
    gen st1' = gen st1.
Proof using Hmax Hfuel.
  destruct (castRay_emits scene options Hmax fuel orig dir 0) with (st := st)
    as (c & st1 & evs & E & Ht & HP).
  { unfold int_range, INT_MIN, INT_MAX. lia. }
  { rewrite Z.sub_0_r. exact Hfuel. }
  pose proof (oblivious_castRay fuel orig dir scene options 0 (gen st) (trace st) [])
    as Hobl.
  destruct st as [g t]. cbn [gen trace] in *. rewrite E in Hobl.
  destruct (castRay fuel orig dir scene options 0 (mkSt g [])) as [[c' st1']| |];
    cbn in Hobl; try contradiction.
  destruct Hobl as (-> & Hg & _).
  exists c', st1, evs, st1'. repeat split; auto.
  eapply written_slots_cast; eauto.
Qed.

(** The inner loop over the pixels of row [j], from column [i0]. *)
Lemma render_row j :
  forall (n i0 : nat) (buf : list (Vec3 T)) (cur : nat) (st : St T Gen),
    (cur + n <= List.length buf)%nat ->
    exists cs st' evs,
      for_loop n (Z.of_nat i0)
        (render_pixel fuel options scene (cameraOrigin options) j) (buf, cur) st
      = Done ((take cur buf ++ cs ++ drop (cur + n) buf, (cur + n)%nat), st') /\
      pixel_colors fuel options scene
        (map (fun i => (Z.of_nat i, j)) (seq i0 n)) (gen st) = Some (cs, gen st') /\
      trace st' = trace st ++ evs /\
      written_slots evs = seq cur n.
Proof using Hmax Hfuel.
  apply render_row_any. intros dir st. apply castRay_primary.
Qed.

(** The outer loop over the rows, from row [j0]. *)
Lemma render_rows (w : nat) :
  forall (h j0 : nat) (buf : list (Vec3 T)) (cur : nat) (st : St T Gen),
    (cur + h * w <= List.length buf)%nat ->
    exists cs st' evs,
      for_loop h (Z.of_nat j0)
        (fun j bc =>
           for_loop w 0%Z
             (render_pixel fuel options scene (cameraOrigin options) j) bc)
        (buf, cur) st
      = Done ((take cur buf ++ cs ++ drop (cur + h * w) buf, (cur + h * w)%nat), st') /\
      pixel_colors fuel options scene
        (flat_map (fun j => map (fun i => (Z.of_nat i, Z.of_nat j)) (seq 0 w))
                  (seq j0 h))
        (gen st) = Some (cs, gen st') /\
      trace st' = trace st ++ evs /\
      written_slots evs = seq cur (h * w).
Proof using Hmax Hfuel.
  apply render_rows_any. intros dir st. apply castRay_primary.
Qed.
End Render.

Lemma lookup_map {A B : Type} (f : A -> B) (l : list A) (k : nat) :
  map f l !! k = option_map f (l !! k).
Proof.
  revert k. induction l as [|a l IH]; intros [|k]; cbn; auto.
Qed.

Lemma row_major_lookup (w h i j : nat) :
  (i < w)%nat -> (j < h)%nat ->
  row_major w h !! (j * w + i)%nat = Some (Z.of_nat i, Z.of_nat j).
Proof.
  intros Hi. unfold row_major.
  change (Z.of_nat j) with (Z.of_nat (0 + j)). generalize 0%nat at 2 3.
  revert j. induction h as [|h IH]; intros j j0 Hj; [lia|].
  cbn [seq flat_map]. destruct j as [|j].
  - rewrite lookup_app_l by (rewrite length_map, length_seq; lia).
    cbn [Nat.mul Nat.add]. rewrite lookup_map, lookup_seq_lt by lia.
    cbn. rewrite Nat.add_0_r. reflexivity.
  - rewrite lookup_app_r by (rewrite length_map, length_seq; lia).
    rewrite length_map, length_seq.
    replace (S j * w + i - w)%nat with (j * w + i)%nat by lia.
    rewrite (IH j (S j0)) by lia. do 3 f_equal. lia.
Qed.

Lemma pixel_colors_lookup fuel options scene coords :
  forall g cs g' k i j,
    pixel_colors fuel options scene coords g = Some (cs, g') ->
    coords !! k = Some (i, j) ->
    exists gk c stk,
      castRay fuel (cameraOrigin options) (primaryDir options i j) scene options 0
              (mkSt gk []) = Done (c, stk) /\
      cs !! k = Some c.
Proof.
  induction coords as [|[i0 j0] rest IH]; intros g cs g' k i j Hc Hk;
    [discriminate|].
  cbn [pixel_colors] in Hc.
  destruct (castRay fuel (cameraOrigin options) (primaryDir options i0 j0)
                    scene options 0 (mkSt g [])) as [[c st']| |] eqn:E;
    try discriminate.
  destruct (pixel_colors fuel options scene rest (gen st')) as [[cs0 g0]|] eqn:E';
    try discriminate.
  inversion Hc; subst. destruct k as [|k]; cbn in Hk.
  - inversion Hk; subst. exists g, c, st'. auto.
  - destruct (IH _ _ _ _ _ _ E' Hk) as (gk & c' & stk & Ek & Hl).
    exists gk, c', stk. auto.
Qed.

Lemma pixel_colors_two fuel options scene i0 j0 i1 j1 g c0 st0' c1 st1' :
  castRay fuel (cameraOrigin options) (primaryDir options i0 j0) scene options 0
          (mkSt g []) = Done (c0, st0') ->
  castRay fuel (cameraOrigin options) (primaryDir options i1 j1) scene options 0
          (mkSt (gen st0') []) = Done (c1, st1') ->
  pixel_colors fuel options scene [(i0, j0); (i1, j1)] g = Some ([c0; c1], gen st1').
Proof.
  intros E0 E1. cbn [pixel_colors]. rewrite E0, E1. reflexivity.
Qed.

(** [render] on a buffer of the right size: the run returns the colors
    of [pixel_colors], and writes the slots in increasing order. *)
Lemma render_refines :
  forall (fuel : nat) (options : Options T Matrix44) (scene : Scene)
         (pixels : list (Vec3 T)) (st : St T Gen),
    (maxDepth options < INT_MAX)%Z ->
    (Z.to_nat (maxDepth options + 1) < fuel)%nat ->
    List.length pixels = (Z.to_nat (height options) * Z.to_nat (width options))%nat ->
    exists (out : list (Vec3 T)) (st' : St T Gen) (evs : list (Event T)),
      render fuel options scene pixels st = Done (out, st') /\
      trace st' = trace st ++ evs /\
      written_slots evs
        = seq 0 (Z.to_nat (height options) * Z.to_nat (width options)) /\
      pixel_colors fuel options scene
        (row_major (Z.to_nat (width options)) (Z.to_nat (height options))) (gen st)
        = Some (out, gen st').
Proof.
  intros fuel options scene pixels st Hmax Hfuel Hlen.
  set (w := Z.to_nat (width options)) in *.
  set (h := Z.to_nat (height options)) in *.
  destruct (render_rows fuel options scene Hmax Hfuel w h 0 pixels 0 st)
    as (cs & st' & evs & E & Hp & Ht & Hw); [lia|].
  change (Z.of_nat 0) with 0%Z in E.
  fold (row_major w h) in Hp.
  assert (Hcs : List.length cs = (h * w)%nat).
  { rewrite (pixel_colors_length _ _ _ _ _ _ _ Hp). apply row_major_length. }
  assert (Hout : take 0 pixels ++ cs ++ drop (0 + h * w) pixels = cs).
  { rewrite take_0, drop_ge by lia. cbn. apply app_nil_r. }
  exists cs, st', evs. unfold render. unfold bind.
  fold w. fold h. rewrite E. unfold ret. cbn [fst]. rewrite Hout.
  repeat split; auto.
Qed.

(** C5, amended: for [maxDepth < INT_MAX], so that every [castRay]
    returns, and on a buffer of [width * height] slots, [render] returns;
    it writes slot 0, 1, 2, ... once each, in that order; the slot of
    pixel [(i, j)] is [j * width + i] and holds the result of [castRay]
    at depth 0 for the primary ray of that pixel, computed with the
    random generator as the pixels before it left it.  The pixels are
    linked by that generator and by nothing else. *)
Theorem render_row_major :
  forall (fuel : nat) (options : Options T Matrix44) (scene : Scene)
         (pixels : list (Vec3 T)) (st : St T Gen),
    (maxDepth options < INT_MAX)%Z ->
    (Z.to_nat (maxDepth options + 1) < fuel)%nat ->
    List.length pixels = (Z.to_nat (height options) * Z.to_nat (width options))%nat ->
    exists (out : list (Vec3 T)) (st' : St T Gen) (evs : list (Event T)),
      render fuel options scene pixels st = Done (out, st') /\
      trace st' = trace st ++ evs /\
      written_slots evs
        = seq 0 (Z.to_nat (height options) * Z.to_nat (width options)) /\
      List.length out = (Z.to_nat (height options) * Z.to_nat (width options))%nat /\
      pixel_colors fuel options scene
        (row_major (Z.to_nat (width options)) (Z.to_nat (height options))) (gen st)
        = Some (out, gen st') /\
      forall i j : nat,
        (i < Z.to_nat (width options))%nat ->
        (j < Z.to_nat (height options))%nat ->
        exists (g : Gen) (c : Vec3 T) (st1 : St T Gen),
          castRay fuel (cameraOrigin options)
                  (primaryDir options (Z.of_nat i) (Z.of_nat j)) scene options 0
                  (mkSt g []) = Done (c, st1) /\
          out !! (j * Z.to_nat (width options) + i)%nat = Some c.
Proof.
  intros fuel options scene pixels st Hmax Hfuel Hlen.
  destruct (render_refines fuel options scene pixels st Hmax Hfuel Hlen)
    as (out & st' & evs & E & Ht & Hw & Hp).
  exists out, st', evs. repeat split; auto.
  - rewrite (pixel_colors_length _ _ _ _ _ _ _ Hp). apply row_major_length.
  - intros i j Hi Hj.
    eapply pixel_colors_lookup; [exact Hp | apply row_major_lookup; assumption].
Qed.

(** The direction of a diffuse sample is [toWorld] of the local sample. *)
Lemma diffuse_sample_toWorld rec hitPoint hitNormal Nt Nb pdf n acc :
  diffuse_sample rec hitPoint hitNormal Nt Nb pdf n acc
  = (r1 <- rand ;;
     r2 <- rand ;;
     c <- rec hitPoint (toWorld (uniformSampleHemisphere r1 r2) hitNormal Nt Nb) ;;
     ret (vadd acc (vdiv (sscale r1 c) pdf))).
Proof. reflexivity. Qed.
End IntegratorFacts.

(** ** The geometry helpers, whatever the arithmetic *)

Section GeometryFacts.
Context {T : Type} `{Scalar T}.

Lemma createCoordinateSystem_Nb (N : Vec3 T) :
  snd (createCoordinateSystem N) = crossProduct N (fst (createCoordinateSystem N)).
Proof. reflexivity. Qed.

Lemma uniformSampleHemisphere_y (r1 r2 : T) :
  vy (uniformSampleHemisphere r1 r2) = r1.
Proof. reflexivity. Qed.

Lemma refract_negative_k (I N : Vec3 T) (ior : T) :
  (refract_k I N ior <? s0)%sc = true -> refract I N ior = vzero.
Proof.
  unfold refract_k, refract.
  destruct (refract_locals I N ior) as [[[cosi etai] etat] n].
  cbv zeta. intros Hk. rewrite Hk. reflexivity.
Qed.
End GeometryFacts.

(** ** The geometry helpers on [float] *)

Section FloatGeometry.

(** [reflect] and [refract] call nothing of the C library: their results
    on [float] do not depend on it. *)
Lemma refract_libm_free (L L' : Libm) (I N : Vec3 float) (ior : float) :
  refract (H := binary32 L) I N ior = refract (H := binary32 L') I N ior.
Proof. reflexivity. Qed.

Lemma reflect_libm_free (L L' : Libm) (I N : Vec3 float) :
  reflect (H := binary32 L) I N = reflect (H := binary32 L') I N.
Proof. reflexivity. Qed.

(** Along the axes nothing is rounded: with [ior = 1], [refract] gives
    back each of the six axis directions, for each of the six axis
    normals (head-on, from behind and sideways). *)
Lemma refract_axes32 (L : Libm) (I N : Vec3 float) :
  In I axes32 -> In N axes32 -> refract (H := binary32 L) I N one32 = I.
Proof.
  unfold axes32. intros HI HN. cbn [In] in HI, HN.
  destruct HI as [<-|[<-|[<-|[<-|[<-|[<-|[]]]]]]];
    destruct HN as [<-|[<-|[<-|[<-|[<-|[<-|[]]]]]]];
    vm_compute; reflexivity.
Qed.

(** The discriminant of [refract] at the grazing direction, step by
    step: the cosine is [2^-13], its square [2^-26] is less than half a
    unit in the last place of 1, so [1 - cosi * cosi] rounds to 1 and
    the discriminant to 0. *)
Lemma refract_k_grazing32 (L : Libm) :
  dotProduct (H := binary32 L) grazing32 unitY32
  = SFopp (SFdiv float_prec float_emax one32 (float_of_int 8192)) /\
  SFsub float_prec float_emax one32
    (SFmul float_prec float_emax
       (SFdiv float_prec float_emax one32 (float_of_int 8192))
       (SFdiv float_prec float_emax one32 (float_of_int 8192)))
  = one32 /\
  refract_k (H := binary32 L) grazing32 unitY32 one32 = zero32.
Proof. repeat split; vm_compute; reflexivity. Qed.

(** C8 as stated fails on [float]: with [ior = 1], the unit normal
    (0,1,0) and the grazing direction (1, -2^-13, 0), whose length is 1
    on [float], [refract] returns (1, 0, 0) and not the incident
    direction.  The discriminant [1 - (1 - cosi * cosi)] comes out as 0,
    not as [cosi * cosi], and the component along the normal is lost. *)
Lemma refract_ior1_bends_float :
  (forall L : Libm, vlength (H := binary32 L) unitY32 = one32) /\
  (forall L : Libm, vlength (H := binary32 L) grazing32 = one32) /\
  (forall L : Libm, refract (H := binary32 L) grazing32 unitY32 one32 = unitX32) /\
  unitX32 <> grazing32.
Proof.
  split; [|split; [|split]].
  - intros L. vm_compute. reflexivity.
  - intros L. vm_compute. reflexivity.
  - intros L. vm_compute. reflexivity.
  - intros E. vm_compute in E. discriminate E.
Qed.

End FloatGeometry.

(** ** The geometry helpers over the real numbers *)

Section RealGeometry.
Open Scope R_scope.

(** [pow_R] on a positive base, and on any base with an integer
    exponent. *)
Lemma Int_part_IZR (n : Z) : Int_part (IZR n) = n.
Proof. symmetry. apply Int_part_spec. lra. Qed.

Lemma pow_R_pos (x y : R) : 0 < x -> pow_R x y = Rpower x y.
Proof. intros Hx. unfold pow_R. destruct (Rlt_dec 0 x); [reflexivity|contradiction]. Qed.

Lemma pow_R_int (x : R) (n : Z) : pow_R x (IZR n) = powerRZ x n.
Proof.
  unfold pow_R. destruct (Rlt_dec 0 x) as [Hx|Hx].
  - symmetry. apply powerRZ_Rpower. exact Hx.
  - rewrite Int_part_IZR. destruct (Req_dec_T (IZR n) (IZR n)); [reflexivity|contradiction].
Qed.

Lemma pow_R_values :
  pow_R (-1) 1 = -1 /\ pow_R 0 1 = 0 /\ pow_R (-2) 2 = 4 /\ pow_R 0 0 = 1.
Proof.
  rewrite (pow_R_int (-1) 1), (pow_R_int 0 1), (pow_R_int (-2) 2), (pow_R_int 0 0).
  unfold powerRZ. simpl.
  repeat split; lra.
Qed.

Lemma Rltb_true (a b : R) : Rltb a b = true <-> a < b.
Proof. unfold Rltb. destruct (Rlt_dec a b); split; intros; auto; discriminate. Qed.

Lemma Rltb_false (a b : R) : Rltb a b = false <-> b <= a.
Proof.
  unfold Rltb. destruct (Rlt_dec a b); split; intros; auto; try discriminate; lra.
Qed.

Lemma dotProduct_self_nonneg (v : Vec3 R) : 0 <= dotProduct v v.
Proof. destruct v as [x y z]. cbn. nra. Qed.

Lemma vlength_unit (v : Vec3 R) : vlength v = 1 <-> dotProduct v v = 1.
Proof.
  unfold vlength. cbn [sqrtf R_scalar]. split; intros Hv.
  - pose proof (sqrt_sqrt _ (dotProduct_self_nonneg v)) as Hs.
    rewrite Hv in Hs. lra.
  - rewrite Hv. apply sqrt_1.
Qed.

(** C9: [reflect I N] is the vector [I - 2 (I . N) N]; for a unit normal
    [N] it has the opposite component along [N] and the length of [I]. *)
Theorem reflect_law :
  forall I N : Vec3 R,
    vlength N = 1 ->
    reflect I N = mkVec3 (vx I - 2 * dotProduct I N * vx N)
                         (vy I - 2 * dotProduct I N * vy N)
                         (vz I - 2 * dotProduct I N * vz N) /\
    dotProduct (reflect I N) N = - dotProduct I N /\
    vlength (reflect I N) = vlength I.
Proof.
  intros [ix iy iz] [nx ny nz] HN. split; [reflexivity|].
  apply vlength_unit in HN.
  unfold vlength, reflect, dotProduct, vsub, sscale in *. cbn in *.
  split.
  - replace ((ix - 2 * (ix * nx + iy * ny + iz * nz) * nx) * nx +
             (iy - 2 * (ix * nx + iy * ny + iz * nz) * ny) * ny +
             (iz - 2 * (ix * nx + iy * ny + iz * nz) * nz) * nz)
      with ((ix * nx + iy * ny + iz * nz)
            * (1 - 2 * (nx * nx + ny * ny + nz * nz))) by ring.
    rewrite HN. ring.
  - f_equal.
    replace ((ix - 2 * (ix * nx + iy * ny + iz * nz) * nx) *
             (ix - 2 * (ix * nx + iy * ny + iz * nz) * nx) +
             (iy - 2 * (ix * nx + iy * ny + iz * nz) * ny) *
             (iy - 2 * (ix * nx + iy * ny + iz * nz) * ny) +
             (iz - 2 * (ix * nx + iy * ny + iz * nz) * nz) *
             (iz - 2 * (ix * nx + iy * ny + iz * nz) * nz))
      with (ix * ix + iy * iy + iz * iz
            + 4 * (ix * nx + iy * ny + iz * nz) * (ix * nx + iy * ny + iz * nz)
              * ((nx * nx + ny * ny + nz * nz) - 1)) by ring.
    rewrite HN. ring.
Qed.

(** C6: for a unit normal [N] the divisor of the tangent is not zero, and
    [Nt], [Nb = N x Nt] and [N] are pairwise orthogonal unit vectors. *)
Theorem createCoordinateSystem_orthonormal :
  forall N : Vec3 R,
    vlength N = 1 ->
    tangentDenominator N <> 0 /\
    snd (createCoordinateSystem N) = crossProduct N (fst (createCoordinateSystem N)) /\
    dotProduct N (fst (createCoordinateSystem N)) = 0 /\
    dotProduct N (snd (createCoordinateSystem N)) = 0 /\
    dotProduct (fst (createCoordinateSystem N)) (snd (createCoordinateSystem N)) = 0 /\
    vlength (fst (createCoordinateSystem N)) = 1 /\
    vlength (snd (createCoordinateSystem N)) = 1.
Proof.
  intros [nx ny nz] HN. apply vlength_unit in HN.
  rewrite !vlength_unit.
  unfold tangentDenominator, createCoordinateSystem, crossProduct, dotProduct, vdiv in *.
  cbn in *.
  destruct (Rltb (Rabs ny) (Rabs nx)) eqn:Hb.
  - apply Rltb_true in Hb.
    assert (Hx : nx <> 0).
    { intros ->. rewrite Rabs_R0 in Hb. pose proof (Rabs_pos ny). lra. }
    assert (Hpos : 0 < nx * nx + nz * nz) by nra.
    pose proof (sqrt_lt_R0 _ Hpos) as Hd.
    pose proof (sqrt_sqrt _ (Rlt_le _ _ Hpos)) as Hdd.
    set (d := sqrt (nx * nx + nz * nz)) in *.
    assert (Hr : / d * / d * (nx * nx + nz * nz) = 1).
    { rewrite <- Hdd. field. lra. }
    unfold Rdiv. set (r := / d) in *. cbn.
    repeat split.
    + lra.
    + ring.
    + ring.
    + ring.
    + replace (nz * r * (nz * r) + 0 * r * (0 * r) + - nx * r * (- nx * r))
        with (r * r * (nx * nx + nz * nz)) by ring.
      exact Hr.
    + replace ((ny * (- nx * r) - nz * (0 * r)) * (ny * (- nx * r) - nz * (0 * r)) +
               (nz * (nz * r) - nx * (- nx * r)) * (nz * (nz * r) - nx * (- nx * r)) +
               (nx * (0 * r) - ny * (nz * r)) * (nx * (0 * r) - ny * (nz * r)))
        with (r * r * (nx * nx + nz * nz) * (nx * nx + ny * ny + nz * nz)) by ring.
      rewrite Hr, HN. ring.
  - apply Rltb_false in Hb.
    assert (Hpos : 0 < ny * ny + nz * nz).
    { destruct (Req_dec ny 0) as [-> | Hy]; [|nra].
      rewrite Rabs_R0 in Hb. pose proof (Rabs_pos nx).
      assert (Hx0 : Rabs nx = 0) by lra.
      destruct (Req_dec nx 0) as [-> | Hx]; [nra|].
      pose proof (Rabs_pos_lt _ Hx). lra. }
    pose proof (sqrt_lt_R0 _ Hpos) as Hd.
    pose proof (sqrt_sqrt _ (Rlt_le _ _ Hpos)) as Hdd.
    set (d := sqrt (ny * ny + nz * nz)) in *.
    assert (Hr : / d * / d * (ny * ny + nz * nz) = 1).
    { rewrite <- Hdd. field. lra. }
    unfold Rdiv. set (r := / d) in *. cbn.
    repeat split.
    + lra.
    + ring.
    + ring.
    + ring.
    + replace (0 * r * (0 * r) + - nz * r * (- nz * r) + ny * r * (ny * r))
        with (r * r * (ny * ny + nz * nz)) by ring.
      exact Hr.
    + replace ((ny * (ny * r) - nz * (- nz * r)) * (ny * (ny * r) - nz * (- nz * r)) +
               (nz * (0 * r) - nx * (ny * r)) * (nz * (0 * r) - nx * (ny * r)) +
               (nx * (- nz * r) - ny * (0 * r)) * (nx * (- nz * r) - ny * (0 * r)))
        with (r * r * (ny * ny + nz * nz) * (nx * nx + ny * ny + nz * nz)) by ring.
      rewrite Hr, HN. ring.
Qed.

(** C7, amended: for [r1] and [r2] in [0,1) the sample is a unit vector
    whose local Y is [r1]; that component is not negative, and it is
    positive exactly when [r1] is. *)
Theorem uniformSampleHemisphere_unit :
  forall r1 r2 : R,
    0 <= r1 < 1 -> 0 <= r2 < 1 ->
    vy (uniformSampleHemisphere r1 r2) = r1 /\
    vlength (uniformSampleHemisphere r1 r2) = 1 /\
    0 <= vy (uniformSampleHemisphere r1 r2) /\
    (0 < vy (uniformSampleHemisphere r1 r2) <-> 0 < r1).
Proof.
  intros r1 r2 H1 H2. rewrite vlength_unit.
  unfold uniformSampleHemisphere, dotProduct. cbn.
  repeat split; try lra.
  assert (Hs : 0 <= 1 - r1 * r1) by nra.
  pose proof (sqrt_sqrt _ Hs) as Hss.
  pose proof (sin2_cos2 (2 * PI * r2)) as Hsc. unfold Rsqr in Hsc.
  set (s := sqrt (1 - r1 * r1)) in *.
  set (phi := 2 * PI * r2) in *.
  replace (s * cos phi * (s * cos phi) + r1 * r1 + s * sin phi * (s * sin phi))
    with (s * s * (sin phi * sin phi + cos phi * cos phi) + r1 * r1) by ring.
  rewrite Hsc, Hss. ring.
Qed.

(** The locals of [refract] for [ior = 1]: the cosine is not negative and
    both indices are 1. *)
Lemma refract_locals_ior1 (I N : Vec3 R) :
  exists cosi n, refract_locals I N 1 = (cosi, 1, 1, n) /\ 0 <= cosi.
Proof.
  unfold refract_locals. cbn.
  destruct (Rltb _ 0) eqn:Hb.
  - apply Rltb_true in Hb. eexists _, _. split; [reflexivity|]. lra.
  - apply Rltb_false in Hb. eexists _, _. split; [reflexivity|]. lra.
Qed.

(** C8, amended: a negative discriminant gives the zero vector, in every
    arithmetic ([float] included) and in particular over the real
    numbers.  With [ior = 1] the incident direction comes back unchanged
    for every [I] and [N] when the arithmetic is exact; on [float] it
    does so for the six axis directions against the six axis normals. *)
Theorem refract_boundary :
  (forall (T : Type) (HT : Scalar T) (I N : Vec3 T) (ior : T),
      (refract_k I N ior <? s0)%sc = true -> refract I N ior = vzero) /\
  (forall (I N : Vec3 R) (ior : R),
      refract_k I N ior < 0 -> refract I N ior = vzero) /\
  (forall I N : Vec3 R, refract I N 1 = I) /\
  (forall (L : Libm) (I N : Vec3 float),
      In I axes32 -> In N axes32 -> refract (H := binary32 L) I N one32 = I).
Proof.
  split; [|split; [|split]].
  - intros T HT I N ior Hk. apply refract_negative_k. exact Hk.
  - intros I N ior Hk. apply refract_negative_k. apply Rltb_true. exact Hk.
  - intros I N. unfold refract.
    destruct (refract_locals_ior1 I N) as (cosi & n & -> & Hc).
    cbn.
    replace (1 - 1 / 1 * (1 / 1) * (1 - cosi * cosi)) with (cosi * cosi) by field.
    rewrite sqrt_square by exact Hc.
    assert (Hk : Rltb (cosi * cosi) 0 = false) by (apply Rltb_false; nra).
    rewrite Hk.
    destruct I as [ix iy iz], n as [nx ny nz]. unfold vadd, sscale. cbn.
    f_equal; field.
  - exact refract_axes32.
Qed.
End RealGeometry.

(** ** Runs in the mock scenes *)

Section MockRuns.
Open Scope R_scope.

(** In the hall of mirrors with [maxDepth = INT_MAX] the depth guard never
    fires: whatever the budget, it is used up. *)
Lemma mirror_never_returns :
  forall (fuel : nat) (orig dir : Vec3 R) (depth : Z) (st : St R nat),
    (depth <= INT_MAX)%Z ->
    castRay (H0 := mirrorWorld) fuel orig dir tt (mockOptions 1 1 INT_MAX) depth st
    = OutOfFuel.
Proof.
  induction fuel as [|fuel IH]; intros orig dir depth st Hd; [reflexivity|].
  cbn [castRay]. unfold castRay_body.
  unfold bind at 1. unfold emit at 1.
  cbn [maxDepth mockOptions].
  destruct (Z.gtb_spec depth INT_MAX) as [Hgt|_]; [lia|].
  unfold bind at 1. unfold query at 1. unfold bind at 1. unfold emit at 1.
  unfold ret at 1.
  cbn [intersect getSurfaceProperties mirrorWorld mockWorld mirrorMaterial
       self_luminous diffuse specular transparent].
  cbv zeta.
  unfold bind at 1. unfold ret at 1.
  unfold bind at 1. unfold bind at 1.
  rewrite IH; [reflexivity|].
  pose proof (wrap32_range (depth + 1)) as Hw. unfold int_range in Hw. lia.
Qed.

(** C2 as stated fails: with [options.maxDepth = INT_MAX], [castRay]
    called at depth 0 in the hall of mirrors does not return, whatever
    the budget of nested calls. *)
Lemma castRay_mirror_diverges :
  ~ exists (fuel : nat) (c : Vec3 R) (st' : St R nat),
      castRay (H0 := mirrorWorld) fuel black downward tt
              (mockOptions 1 1 2147483647) 0 st0 = Done (c, st').
Proof.
  intros (fuel & c & st' & E).
  change 2147483647%Z with INT_MAX in E.
  rewrite mirror_never_returns in E; [discriminate|].
  unfold INT_MAX. lia.
Qed.

(** Where [maxDepth] is [INT_MAX] there may be no image at all: in the
    hall of mirrors the first pixel never gets its color, whatever the
    budget of nested calls. *)
Lemma render_mirror_diverges :
  forall (fuel : nat) (pixels : list (Vec3 R)) (st : St R nat),
    render (H0 := mirrorWorld) fuel (mockOptions 1 1 INT_MAX) tt pixels st = OutOfFuel.
Proof.
  intros fuel pixels st. unfold render. unfold bind at 1.
  change (Z.to_nat (height (mockOptions 1 1 INT_MAX))) with 1%nat.
  change (Z.to_nat (width (mockOptions 1 1 INT_MAX))) with 1%nat.
  cbn [for_loop]. unfold bind at 1. unfold bind at 1.
  unfold render_pixel at 1. unfold bind at 1.
  rewrite mirror_never_returns; [reflexivity | unfold INT_MAX; lia].
Qed.
Lemma diffuse_loop_mock (hitPoint hitNormal Nt Nb : Vec3 R) (pdf : R) :
  forall (n : nat) (i : Z) (acc : Vec3 R) (g : nat) (t : list (Event R)),
  exists acc' t',
    for_loop n i
      (diffuse_sample (H0 := diffuseWorld)
         (fun o d => castRay (H0 := diffuseWorld) 1 o d tt leafOptions (wrap32 (0 + 1)))
         hitPoint hitNormal Nt Nb pdf)
      acc (mkSt g t)
    = Done (acc', mkSt (g + 2 * n)%nat t') /\
    ((g + 2 * n <= 256)%nat -> vx acc' = vx acc) /\
    ((256 <= g)%nat -> vx acc' = vx acc + INR n * (1 / 2 / pdf)).
Proof.
  induction n as [|n IH]; intros i acc g t.
  - exists acc, t. cbn. rewrite Nat.add_0_r. repeat split; auto. intros; lra.
  - cbn [for_loop]. unfold bind at 1. unfold diffuse_sample at 1.
    unfold bind at 1. unfold rand at 1. cbn [draw diffuseWorld mockWorld gen trace].
    unfold bind at 1. unfold rand at 1. cbn [draw diffuseWorld mockWorld gen trace].
    unfold bind at 1.
    rewrite castRay_past_limit by (change (1 > 0)%Z; lia).
    unfold ret at 1. cbn [gen trace].
    change (backgroundColor leafOptions) with white.
    destruct (IH (i + 1)%Z (vadd acc (vdiv (sscale (lateDraws g) white) pdf))
                 (S (S g)) (t ++ [EvCast (wrap32 (0 + 1))]))
      as (acc' & t' & E & Hlo & Hhi).
    exists acc', t'.
    replace (g + 2 * S n)%nat with (S (S g) + 2 * n)%nat by lia.
    split; [exact E|]. split.
    + intros Hle. rewrite Hlo by lia.
      unfold lateDraws. destruct (Nat.ltb_spec g 256) as [_|Hge]; [|lia].
      cbn. unfold Rdiv. ring.
    + intros Hge. rewrite Hhi by lia.
      unfold lateDraws. destruct (Nat.ltb_spec g 256) as [Hlt|_]; [lia|].
      rewrite S_INR. cbn. unfold Rdiv. ring.
Qed.

(** One diffuse bounce at the depth limit: 256 draws are consumed; the
    red component is 1 when all of them are 0 and larger than 1 when
    all of them are 1/2. *)
Lemma diffuse_leaf (orig dir : Vec3 R) (g : nat) (t : list (Event R)) :
  exists c t',
    castRay (H0 := diffuseWorld) 2 orig dir tt leafOptions 0 (mkSt g t)
    = Done (c, mkSt (g + 256)%nat t') /\
    ((g = 0)%nat -> vx c = 1) /\
    ((256 <= g)%nat -> 1 < vx c).
Proof.
  rewrite castRay_S.
  unfold castRay_body.
  unfold bind at 1. unfold emit at 1.
  change (maxDepth leafOptions) with 0%Z. cbn [Z.gtb Z.compare].
  unfold bind at 1. unfold query at 1. unfold bind at 1. unfold emit at 1.
  unfold ret at 1.
  cbn [intersect getSurfaceProperties diffuseWorld mockWorld diffuseMaterial
       self_luminous diffuse specular transparent gen trace].
  cbv zeta.
  destruct (createCoordinateSystem (mkVec3 0 1 0)) as [Nt Nb].
  unfold bind at 1. unfold bind at 1.
  destruct (diffuse_loop_mock (vadd orig (vscale dir 1)) (mkVec3 0 1 0) Nt Nb
              (1 / (2 * PI)) N_samples 0%Z (vsplat 0)
              g ((t ++ [EvCast 0%Z]) ++ [EvIntersect orig dir]))
    as (acc' & t' & E & Hlo & Hhi).
  match goal with
  | |- context [for_loop ?n ?i ?b ?a ?s] =>
    replace (for_loop n i b a s)
      with (Done (acc', mkSt (g + 2 * N_samples)%nat t')) by (symmetry; exact E)
  end.
  unfold ret, bind.
  eexists _, t'. split; [reflexivity|].
  change (backgroundColor leafOptions) with white.
  cbn [vx vadd vmul vdiv white kd diffuseMaterial sadd smul sdiv R_scalar of_int].
  split.
  - intros ->. rewrite Hlo by (unfold N_samples; lia). cbn. unfold Rdiv. ring.
  - intros Hge. rewrite Hhi by exact Hge.
    assert (Hpdf : 0 < 1 / 2 / (1 / (2 * PI))).
    { pose proof PI_RGT_0.
      apply Rdiv_lt_0_compat; [lra|]. apply Rdiv_lt_0_compat; lra. }
    assert (Hn : 0 < INR N_samples) by (apply lt_0_INR; unfold N_samples; lia).
    assert (Hz : 0 < IZR (Z.of_nat N_samples)) by (apply IZR_lt; unfold N_samples; lia).
    cbn [vx vsplat s0 R_scalar].
    assert (Hprod : 0 < (0 + INR N_samples * (1 / 2 / (1 / (2 * PI))))
                         / IZR (Z.of_nat N_samples) * 1).
    { rewrite Rmult_1_r. apply Rdiv_lt_0_compat; [|exact Hz].
      rewrite Rplus_0_l. apply Rmult_lt_0_compat; assumption. }
    lra.
Qed.

(** In a two by one image of a diffuse surface the second pixel is not
    the color that [castRay] computes for its primary ray on its own,
    because the first pixel has moved the generator. *)
Lemma render_second_pixel_differs :
  exists (out : list (Vec3 R)) (st' : St R nat) (c : Vec3 R) (st1 : St R nat),
    render (H0 := diffuseWorld) 2 leafOptions tt [black; black] st0
    = Done (out, st') /\
    castRay (H0 := diffuseWorld) 2
            (cameraOrigin (H0 := diffuseWorld) leafOptions)
            (primaryDir (H0 := diffuseWorld) leafOptions 1 0)
            tt leafOptions 0 st0
    = Done (c, st1) /\
    out !! 1%nat <> Some c.
Proof.
  assert (Hmax : (maxDepth leafOptions < INT_MAX)%Z) by (unfold INT_MAX; cbn; lia).
  assert (Hfuel : (Z.to_nat (maxDepth leafOptions + 1) < 2)%nat) by (cbn; lia).
  destruct (render_refines (H0 := diffuseWorld) 2 leafOptions tt [black; black] st0
              Hmax Hfuel eq_refl)
    as (out & st' & evs & E & _ & _ & Hp).
  destruct (diffuse_leaf (cameraOrigin (H0 := diffuseWorld) leafOptions)
              (primaryDir (H0 := diffuseWorld) leafOptions 0 0) 0%nat [])
    as (c0 & t0 & E0 & _ & _).
  destruct (diffuse_leaf (cameraOrigin (H0 := diffuseWorld) leafOptions)
              (primaryDir (H0 := diffuseWorld) leafOptions 1 0) 256%nat [])
    as (c1 & t1 & E1 & _ & Hc1).
  destruct (diffuse_leaf (cameraOrigin (H0 := diffuseWorld) leafOptions)
              (primaryDir (H0 := diffuseWorld) leafOptions 1 0) 0%nat [])
    as (c & t & Ec & Hc & _).
  pose proof (pixel_colors_two (H0 := diffuseWorld) 2 leafOptions tt 0 0 1 0 0%nat
                c0 _ c1 _ E0 E1) as Hp2.
  assert (Heq : Some (out, gen st') = Some ([c0; c1], (256 + 256)%nat)).
  { etransitivity; [symmetry; exact Hp | exact Hp2]. }
  injection Heq as Hout _. subst out.
  exists [c0; c1], st', c, (mkSt (0 + 256)%nat t).
  split; [exact E|]. split; [exact Ec|].
  cbn. intros Hc01. injection Hc01 as Hc01. subst c1.
  specialize (Hc eq_refl). specialize (Hc1 ltac:(lia)). lra.
Qed.

(** C5 as stated fails, in two ways.  The pixels are not independent:
    in a two by one image of a diffuse surface the second pixel differs
    from the color that [castRay] computes for its primary ray on its
    own.  And not every slot is written: with [maxDepth = INT_MAX] in the
    hall of mirrors, [render] never gets past the first pixel of a one
    by one image. *)
Lemma render_generator_and_depth_limit :
  (exists (out : list (Vec3 R)) (st' : St R nat) (c : Vec3 R) (st1 : St R nat),
      render (H0 := diffuseWorld) 2 leafOptions tt [black; black] st0
      = Done (out, st') /\
      castRay (H0 := diffuseWorld) 2
              (cameraOrigin (H0 := diffuseWorld) leafOptions)
              (primaryDir (H0 := diffuseWorld) leafOptions 1 0)
              tt leafOptions 0 st0
      = Done (c, st1) /\
      out !! 1%nat <> Some c) /\
  ~ exists (fuel : nat) (out : list (Vec3 R)) (st' : St R nat),
      render (H0 := mirrorWorld) fuel (mockOptions 1 1 2147483647) tt [black] st0
      = Done (out, st').
Proof.
  split; [exact render_second_pixel_differs|].
  intros (fuel & out & st' & E).
  change 2147483647%Z with INT_MAX in E.
  rewrite render_mirror_diverges in E. discriminate E.
Qed.

(** C7 as stated fails: [r1 = 0] lies in [0,1) and gives a sample whose
    local Y is 0, which is not positive. *)
Lemma uniformSampleHemisphere_flat :
  0 <= 0 < 1 /\ ~ 0 < vy (uniformSampleHemisphere 0 0).
Proof.
  split; [lra|]. cbn. lra.
Qed.

(** *** The theorems at work *)

Lemma castRay_depth_limit_witness :
  (3 > maxDepth (mockOptions 1 1 2))%Z /\
  castRay (H0 := mirrorWorld) 1 black downward tt (mockOptions 1 1 2) 3 st0
  = Done (backgroundColor (mockOptions 1 1 2),
          mkSt (gen st0) (trace st0 ++ [EvCast 3%Z])).
Proof.
  split; [reflexivity|].
  apply (castRay_depth_limit (H0 := mirrorWorld)). reflexivity.
Defined.

Lemma castRay_terminates_witness :
  (maxDepth (mockOptions 1 1 2) < INT_MAX)%Z /\ int_range 0 /\
  (Z.to_nat (maxDepth (mockOptions 1 1 2) + 1 - 0) < 4)%nat /\
  exists (c : Vec3 R) (st' : St R nat) (evs : list (Event R)),
    castRay (H0 := mirrorWorld) 4 black downward tt (mockOptions 1 1 2) 0 st0
    = Done (c, st') /\
    trace st' = trace st0 ++ evs /\
    Forall (cast_event 0 (Z.max 0 (maxDepth (mockOptions 1 1 2) + 1))) evs.
Proof.
  assert (H1 : (maxDepth (mockOptions 1 1 2) < INT_MAX)%Z) by reflexivity.
  assert (H2 : int_range 0) by (unfold int_range, INT_MIN, INT_MAX; lia).
  assert (H3 : (Z.to_nat (maxDepth (mockOptions 1 1 2) + 1 - 0) < 4)%nat)
    by (cbn; lia).
  split; [exact H1|]. split; [exact H2|]. split; [exact H3|].
  exact (proj2 (castRay_terminates (H0 := mirrorWorld) tt (mockOptions 1 1 2)
                  black downward 0 st0 4 H1 H2 H3)).
Defined.

Lemma castRay_emissive_witness :
  castRay (H0 := lampWorld) 1 black downward tt (mockOptions 1 1 2) 0 st0
  = Done (vmul (ka emissiveMaterial) white,
          after_query (H0 := lampWorld) black downward 0 st0).
Proof.
  apply (castRay_emissive (H0 := lampWorld) 0 black downward tt (mockOptions 1 1 2)
           0 st0 1 0%Z tt tt (mkVec3 0 1 0) tt white emissiveMaterial).
  - cbn. lia.
  - reflexivity.
  - reflexivity.
  - reflexivity.
Defined.

Lemma castRay_miss_or_plain_witness :
  castRay (H0 := emptyWorld) 1 black downward tt (mockOptions 1 1 2) 0 st0
  = Done (backgroundColor (mockOptions 1 1 2),
          after_query (H0 := emptyWorld) black downward 0 st0) /\
  castRay (H0 := plainWorld) 1 black downward tt (mockOptions 1 1 2) 0 st0
  = Done (backgroundColor (mockOptions 1 1 2),
          after_query (H0 := plainWorld) black downward 0 st0).
Proof.
  split.
  - apply (castRay_miss_or_plain (H0 := emptyWorld)).
    + cbn. lia.
    + left. reflexivity.
  - apply (castRay_miss_or_plain (H0 := plainWorld)).
    + cbn. lia.
    + right. exists 1, 0%Z, tt, tt, (mkVec3 0 1 0), tt, white, plainMaterial.
      repeat split; reflexivity.
Defined.

Lemma render_row_major_witness :
  (maxDepth leafOptions < INT_MAX)%Z /\
  (Z.to_nat (maxDepth leafOptions + 1) < 2)%nat /\
  List.length [black; black]
  = (Z.to_nat (height leafOptions) * Z.to_nat (width leafOptions))%nat /\
  exists (out : list (Vec3 R)) (st' : St R nat) (evs : list (Event R)),
    render (H0 := diffuseWorld) 2 leafOptions tt [black; black] st0 = Done (out, st') /\
    trace st' = trace st0 ++ evs /\
    written_slots evs = seq 0 2 /\
    List.length out = 2%nat /\
    pixel_colors (H0 := diffuseWorld) 2 leafOptions tt (row_major 2 1) (gen st0)
    = Some (out, gen st') /\
    gen st' = 512%nat /\
    forall i j : nat,
      (i < 2)%nat -> (j < 1)%nat ->
      exists (g : nat) (c : Vec3 R) (st1 : St R nat),
        castRay (H0 := diffuseWorld) 2
                (cameraOrigin (H0 := diffuseWorld) leafOptions)
                (primaryDir (H0 := diffuseWorld) leafOptions (Z.of_nat i) (Z.of_nat j))
                tt leafOptions 0 (mkSt g [])
        = Done (c, st1) /\
        out !! (j * 2 + i)%nat = Some c.
Proof.
  assert (Hmax : (maxDepth leafOptions < INT_MAX)%Z) by (unfold INT_MAX; cbn; lia).
  assert (Hfuel : (Z.to_nat (maxDepth leafOptions + 1) < 2)%nat) by (cbn; lia).
  assert (Hlen : List.length [black; black]
                 = (Z.to_nat (height leafOptions) * Z.to_nat (width leafOptions))%nat)
    by reflexivity.
  split; [exact Hmax|]. split; [exact Hfuel|]. split; [exact Hlen|].
  destruct (render_row_major (H0 := diffuseWorld) 2 leafOptions tt [black; black] st0
              Hmax Hfuel Hlen)
    as (out & st' & evs & E & Ht & Hw & Hl & Hp & Hpix).
  destruct (diffuse_leaf (cameraOrigin (H0 := diffuseWorld) leafOptions)
              (primaryDir (H0 := diffuseWorld) leafOptions 0 0) 0%nat [])
    as (c0 & t0 & E0 & _ & _).
  destruct (diffuse_leaf (cameraOrigin (H0 := diffuseWorld) leafOptions)
              (primaryDir (H0 := diffuseWorld) leafOptions 1 0) 256%nat [])
    as (c1 & t1 & E1 & _ & _).
  pose proof (pixel_colors_two (H0 := diffuseWorld) 2 leafOptions tt 0 0 1 0 0%nat
                c0 _ c1 _ E0 E1) as Hp2.
  assert (Heq : Some (out, gen st') = Some ([c0; c1], (256 + 256)%nat)).
  { etransitivity; [symmetry; exact Hp | exact Hp2]. }
  injection Heq as _ Hgen.
  exists out, st', evs.
  split; [exact E|]. split; [exact Ht|]. split; [exact Hw|]. split; [exact Hl|].
  split; [exact Hp|]. split; [exact Hgen|]. exact Hpix.
Defined.

End MockRuns.

Section RealWitnesses.
Open Scope R_scope.

Lemma vlength_unitX : vlength unitX = 1.
Proof. apply vlength_unit. cbn. ring. Qed.

Lemma vlength_unitY : vlength unitY = 1.
Proof. apply vlength_unit. cbn. ring. Qed.

Lemma createCoordinateSystem_orthonormal_witness :
  vlength unitX = 1 /\
  tangentDenominator unitX <> 0 /\
  vlength (fst (createCoordinateSystem unitX)) = 1 /\
  vlength (snd (createCoordinateSystem unitX)) = 1.
Proof.
  pose proof (createCoordinateSystem_orthonormal unitX vlength_unitX)
    as (Hd & _ & _ & _ & _ & Ht & Hb).
  repeat split; try assumption. exact vlength_unitX.
Defined.

Lemma uniformSampleHemisphere_unit_witness :
  0 <= 1 / 2 < 1 /\ 0 <= 1 / 4 < 1 /\
  vy (uniformSampleHemisphere (1 / 2) (1 / 4)) = 1 / 2 /\
  vlength (uniformSampleHemisphere (1 / 2) (1 / 4)) = 1.
Proof.
  assert (H1 : 0 <= 1 / 2 < 1) by lra.
  assert (H2 : 0 <= 1 / 4 < 1) by lra.
  pose proof (uniformSampleHemisphere_unit (1 / 2) (1 / 4) H1 H2) as (Hy & Hl & _).
  repeat split; try assumption; lra.
Defined.

Lemma refract_k_grazing : refract_k unitX unitY 2 = -3.
Proof.
  unfold refract_k, refract_locals, smin, smax, dotProduct. cbn.
  replace (1 * 0 + 0 * 1 + 0 * 0) with 0 by ring.
  assert (H1 : Rltb (Ropp 1) 0 = true) by (apply Rltb_true; lra).
  rewrite H1.
  assert (H2 : Rltb 1 0 = false) by (apply Rltb_false; lra).
  rewrite H2.
  assert (H3 : Rltb 0 0 = false) by (apply Rltb_false; lra).
  rewrite H3. field.
Qed.

Lemma refract_boundary_witness :
  refract_k unitX unitY 2 < 0 /\ refract unitX unitY 2 = vzero /\
  refract unitX unitY 1 = unitX /\
  (forall L : Libm,
      SFltb (refract_k (H := binary32 L) unitX32 unitY32 (float_of_int 2)) zero32 = true /\
      refract (H := binary32 L) unitX32 unitY32 (float_of_int 2)
      = mkVec3 zero32 zero32 zero32) /\
  In unitX32 axes32 /\ In unitY32 axes32 /\
  (forall L : Libm, refract (H := binary32 L) unitX32 unitY32 one32 = unitX32).
Proof.
  assert (Hk : refract_k unitX unitY 2 < 0) by (rewrite refract_k_grazing; lra).
  assert (HX : In unitX32 axes32) by (left; reflexivity).
  assert (HY : In unitY32 axes32) by (right; left; reflexivity).
  pose proof refract_boundary as (Hg & Hr & H1 & Hf).
  split; [exact Hk|]. split; [exact (Hr unitX unitY 2 Hk)|].
  split; [exact (H1 unitX unitY)|].
  split.
  - intros L.
    assert (HkL : SFltb (refract_k (H := binary32 L) unitX32 unitY32 (float_of_int 2))
                        zero32 = true) by (vm_compute; reflexivity).
    split; [exact HkL|].
    exact (Hg float (binary32 L) unitX32 unitY32 (float_of_int 2) HkL).
  - split; [exact HX|]. split; [exact HY|].
    intros L. exact (Hf L unitX32 unitY32 HX HY).
Defined.

Lemma reflect_law_witness :
  vlength unitY = 1 /\
  reflect (mkVec3 1 (-1) 0) unitY = mkVec3 1 1 0 /\
  dotProduct (reflect (mkVec3 1 (-1) 0) unitY) unitY
    = - dotProduct (mkVec3 1 (-1) 0) unitY /\
  vlength (reflect (mkVec3 1 (-1) 0) unitY) = vlength (mkVec3 1 (-1) 0).
Proof.
  pose proof (reflect_law (mkVec3 1 (-1) 0) unitY vlength_unitY) as (Hf & Hd & Hl).
  split; [exact vlength_unitY|]. split; [|split; [exact Hd|exact Hl]].
  rewrite Hf. unfold dotProduct. cbn. f_equal; ring.
Defined.
End RealWitnesses.

(** ** Reflection and refraction over the real numbers *)

Section RealOptics.
Open Scope R_scope.

Lemma dotProduct_comm (u v : Vec3 R) : dotProduct u v = dotProduct v u.
Proof. destruct u, v. cbn. ring. Qed.

Lemma dotProduct_combination (a b : R) (u v w : Vec3 R) :
  dotProduct (vadd (sscale a u) (sscale b v)) w
  = a * dotProduct u w + b * dotProduct v w.
Proof. destruct u, v, w. cbn. ring. Qed.

Lemma dotProduct_vneg_r (u v : Vec3 R) : dotProduct u (vneg v) = - dotProduct u v.
Proof. destruct u, v. cbn. ring. Qed.

(** Cauchy and Schwarz, for unit vectors. *)
Lemma dotProduct_unit_bound (u v : Vec3 R) :
  vlength u = 1 -> vlength v = 1 -> -1 <= dotProduct u v <= 1.
Proof.
  intros Hu Hv. apply vlength_unit in Hu. apply vlength_unit in Hv.
  destruct u as [a b c], v as [x y z]. cbn in *.
  assert (Hl : (a * a + b * b + c * c) * (x * x + y * y + z * z)
               - (a * x + b * y + c * z) * (a * x + b * y + c * z)
               = (a * y - b * x) * (a * y - b * x) + (b * z - c * y) * (b * z - c * y)
                 + (c * x - a * z) * (c * x - a * z)) by ring.
  rewrite Hu, Hv in Hl.
  pose proof (Rle_0_sqr (a * y - b * x)) as H1.
  pose proof (Rle_0_sqr (b * z - c * y)) as H2.
  pose proof (Rle_0_sqr (c * x - a * z)) as H3.
  unfold Rsqr in *.
  set (d := a * x + b * y + c * z) in *.
  assert (Hd : d * d <= 1) by lra.
  split; nra.
Qed.

Lemma reflect_dot_normal (I N : Vec3 R) :
  vlength N = 1 -> dotProduct (reflect I N) N = - dotProduct I N.
Proof.
  intros HN. apply vlength_unit in HN.
  destruct I as [ix iy iz], N as [nx ny nz]. unfold reflect. cbn in *.
  replace ((ix - 2 * (ix * nx + iy * ny + iz * nz) * nx) * nx +
           (iy - 2 * (ix * nx + iy * ny + iz * nz) * ny) * ny +
           (iz - 2 * (ix * nx + iy * ny + iz * nz) * nz) * nz)
    with ((ix * nx + iy * ny + iz * nz)
          * (1 - 2 * (nx * nx + ny * ny + nz * nz))) by ring.
  rewrite HN. ring.
Qed.

(** X1: reflecting twice about the same unit normal gives the incident
    direction back. *)
Theorem reflect_involutive :
  forall I N : Vec3 R,
    vlength N = 1 -> reflect (reflect I N) N = I.
Proof.
  intros I N HN. unfold reflect at 1.
  rewrite (reflect_dot_normal I N HN).
  destruct I as [ix iy iz], N as [nx ny nz].
  unfold reflect, vsub, sscale, dotProduct. cbn.
  f_equal; ring.
Qed.

(** X2: reflection about a unit normal keeps the dot product of any two
    directions, hence lengths and angles. *)
Theorem reflect_isometry :
  forall I J N : Vec3 R,
    vlength N = 1 ->
    dotProduct (reflect I N) (reflect J N) = dotProduct I J.
Proof.
  intros [ix iy iz] [jx jy jz] [nx ny nz] HN. apply vlength_unit in HN.
  unfold reflect. cbn in *.
  match goal with
  | |- ?lhs = _ =>
    replace lhs
      with (ix * jx + iy * jy + iz * jz
            + 4 * (ix * nx + iy * ny + iz * nz) * (jx * nx + jy * ny + jz * nz)
              * ((nx * nx + ny * ny + nz * nz) - 1)) by ring
  end.
  rewrite HN. ring.
Qed.

(** X3: the base [cosineAlpha = Reflect . (-dir)] of the specular power in
    [castRay] is [2 (dir . N)^2 - 1] for unit [dir] and [N]; it is negative as
    soon as the ray meets the surface at more than 45 degrees from the
    normal. *)
Theorem specular_cosine :
  forall dir N : Vec3 R,
    vlength dir = 1 -> vlength N = 1 ->
    dotProduct (reflect dir N) (vneg dir)
      = 2 * (dotProduct dir N * dotProduct dir N) - 1 /\
    (dotProduct dir N * dotProduct dir N < 1 / 2 ->
     dotProduct (reflect dir N) (vneg dir) < 0).
Proof.
  intros [dx dy dz] [nx ny nz] Hd HN.
  apply vlength_unit in Hd. apply vlength_unit in HN.
  unfold reflect. cbn in *.
  assert (E : (dx - 2 * (dx * nx + dy * ny + dz * nz) * nx) * - dx +
              (dy - 2 * (dx * nx + dy * ny + dz * nz) * ny) * - dy +
              (dz - 2 * (dx * nx + dy * ny + dz * nz) * nz) * - dz
              = 2 * ((dx * nx + dy * ny + dz * nz) * (dx * nx + dy * ny + dz * nz)) - 1).
  { rewrite <- Hd. ring. }
  split; [exact E|]. intros Hlt. rewrite E. lra.
Qed.

Lemma dotProduct_combination_self (a b : R) (u v : Vec3 R) :
  dotProduct (vadd (sscale a u) (sscale b v)) (vadd (sscale a u) (sscale b v))
  = a * a * dotProduct u u + 2 * (a * b) * dotProduct u v + b * b * dotProduct v v.
Proof. destruct u, v. cbn. ring. Qed.

Lemma dotProduct_vneg_l (u v : Vec3 R) : dotProduct (vneg u) v = - dotProduct u v.
Proof. destruct u, v. cbn. ring. Qed.

Lemma vlength_vneg (u : Vec3 R) : vlength u = 1 -> vlength (vneg u) = 1.
Proof.
  rewrite !vlength_unit. intros Hu.
  rewrite dotProduct_vneg_l, dotProduct_vneg_r, Hu. ring.
Qed.

(** The clamp of [refract] in terms of the dot product: its value lies
    between -1 and 1, it has the sign of the dot product, and it is the
    dot product itself when that lies between -1 and 1. *)
Lemma clamp_spec (d : R) :
  -1 <= smin (smax (sneg s1) d) s1 <= 1 /\
  (d < 0 -> smin (smax (sneg s1) d) s1 < 0) /\
  (0 <= d -> 0 <= smin (smax (sneg s1) d) s1) /\
  (-1 <= d <= 1 -> smin (smax (sneg s1) d) s1 = d).
Proof.
  unfold smin, smax. cbn [s1 sneg sltb R_scalar].
  destruct (Rltb (- (1)) d) eqn:E1;
    [apply Rltb_true in E1 | apply Rltb_false in E1].
  - destruct (Rltb 1 d) eqn:E2;
      [apply Rltb_true in E2 | apply Rltb_false in E2]; repeat split; intros; lra.
  - assert (E2 : Rltb 1 (- (1)) = false) by (apply Rltb_false; lra).
    rewrite E2. repeat split; intros; lra.
Qed.

(** The locals of [refract] for unit vectors. *)
Lemma refract_locals_unit (I N : Vec3 R) (ior : R) :
  vlength I = 1 -> vlength N = 1 ->
  refract_locals I N ior
  = if Rltb (dotProduct I N) 0
    then (- dotProduct I N, 1, ior, N)
    else (dotProduct I N, ior, 1, vneg N).
Proof.
  intros HI HN. pose proof (dotProduct_unit_bound I N HI HN) as Hb.
  unfold refract_locals. cbv zeta.
  destruct (clamp_spec (dotProduct I N)) as (_ & _ & _ & Hc).
  rewrite (Hc Hb). reflexivity.
Qed.

(** X4: for unit [I] and [N] and a non-negative discriminant, [refract]
    returns a unit vector. *)
Theorem refract_unit :
  forall (I N : Vec3 R) (ior : R),
    vlength I = 1 -> vlength N = 1 -> 0 < ior ->
    0 <= refract_k I N ior ->
    vlength (refract I N ior) = 1.
Proof.
  intros I N ior HI HN Hior Hk. rewrite vlength_unit.
  unfold refract_k in Hk. unfold refract.
  rewrite (refract_locals_unit I N ior HI HN) in *.
  apply vlength_unit in HI. apply vlength_unit in HN.
  set (d := dotProduct I N) in *.
  destruct (Rltb d 0); cbv zeta in *; cbn [s0 s1 sadd ssub smul sdiv sqrtf sltb R_scalar] in *.
  - set (eta := 1 / ior) in *. set (c := - d) in *.
    set (k := 1 - eta * eta * (1 - c * c)) in *.
    assert (Hb : Rltb k 0 = false) by (apply Rltb_false; exact Hk).
    rewrite Hb, dotProduct_combination_self, HI, HN. fold d.
    pose proof (sqrt_sqrt k Hk) as Hs. set (s := sqrt k) in *.
    replace (eta * eta * 1 + 2 * (eta * (eta * c - s)) * d + (eta * c - s) * (eta * c - s) * 1)
      with (eta * eta * (1 - c * c) + s * s) by (unfold c; ring).
    rewrite Hs. unfold k. ring.
  - set (eta := ior / 1) in *. set (c := d) in *.
    set (k := 1 - eta * eta * (1 - c * c)) in *.
    assert (Hb : Rltb k 0 = false) by (apply Rltb_false; exact Hk).
    rewrite Hb, dotProduct_combination_self, HI.
    rewrite dotProduct_vneg_l, !dotProduct_vneg_r, HN. fold d.
    pose proof (sqrt_sqrt k Hk) as Hs. set (s := sqrt k) in *.
    replace (eta * eta * 1 + 2 * (eta * (eta * c - s)) * - d
             + (eta * c - s) * (eta * c - s) * - - (1))
      with (eta * eta * (1 - c * c) + s * s) by (unfold c; ring).
    rewrite Hs. unfold k. ring.
Qed.

(** X5: Snell's law.  For unit [I] and [N] and a non-negative
    discriminant: [eta] is [1 / ior] for a ray that arrives against the
    normal and [ior] otherwise; the component of the refracted direction
    along [N] is the square root of the discriminant with the sign of
    [I . N], so the ray goes on to the other side; and its component across
    [N] is [eta] times that of [I]. *)
Theorem refract_snell :
  forall (I N : Vec3 R) (ior : R),
    vlength I = 1 -> vlength N = 1 -> 0 < ior ->
    0 <= refract_k I N ior ->
    (dotProduct I N < 0 ->
     refract_eta I N ior = 1 / ior /\
     dotProduct (refract I N ior) N = - sqrt (refract_k I N ior)) /\
    (0 <= dotProduct I N ->
     refract_eta I N ior = ior /\
     dotProduct (refract I N ior) N = sqrt (refract_k I N ior)) /\
    vsub (refract I N ior) (sscale (dotProduct (refract I N ior) N) N)
    = sscale (refract_eta I N ior) (vsub I (sscale (dotProduct I N) N)).
Proof.
  intros I N ior HI HN Hior Hk.
  unfold refract_k in *. unfold refract, refract_eta.
  rewrite (refract_locals_unit I N ior HI HN) in *.
  apply vlength_unit in HI. apply vlength_unit in HN.
  destruct (Rltb (dotProduct I N) 0) eqn:Hd;
    [apply Rltb_true in Hd | apply Rltb_false in Hd];
    cbv zeta in *; cbn [s0 s1 sadd ssub smul sdiv sqrtf sltb R_scalar] in *.
  - set (eta := 1 / ior) in *. set (c := - dotProduct I N) in *.
    set (k := 1 - eta * eta * (1 - c * c)) in *.
    assert (Hb : Rltb k 0 = false) by (apply Rltb_false; exact Hk).
    rewrite Hb. set (s := sqrt k) in *.
    assert (HTN : dotProduct (vadd (sscale eta I) (sscale (eta * c - s) N)) N = - s).
    { rewrite dotProduct_combination, HN. unfold c. ring. }
    split; [intros _; split; [reflexivity | exact HTN]|]. split; [intros Hge; lra|].
    rewrite HTN. unfold c. set (d := dotProduct I N).
    destruct I as [ix iy iz], N as [nx ny nz].
    unfold vsub, vadd, sscale. cbn. f_equal; ring.
  - set (eta := ior / 1) in *. set (c := dotProduct I N) in *.
    set (k := 1 - eta * eta * (1 - c * c)) in *.
    assert (Hb : Rltb k 0 = false) by (apply Rltb_false; exact Hk).
    rewrite Hb. set (s := sqrt k) in *.
    assert (HTN : dotProduct (vadd (sscale eta I) (sscale (eta * c - s) (vneg N))) N = s).
    { rewrite dotProduct_combination, dotProduct_vneg_l, HN. fold c. ring. }
    split; [intros Hlt; lra|].
    split; [intros _; split; [unfold eta; field | exact HTN]|].
    rewrite HTN. clearbody c s.
    destruct I as [ix iy iz], N as [nx ny nz].
    unfold vsub, vadd, sscale, vneg. cbn. f_equal; ring.
Qed.

(** X6: along the normal, in either direction, a ray is not bent,
    whatever the index of refraction. *)
Theorem refract_normal_incidence :
  forall (N : Vec3 R) (ior : R),
    vlength N = 1 -> 0 < ior ->
    refract N N ior = N /\ refract (vneg N) N ior = vneg N.
Proof.
  intros N ior HN Hior. pose proof (vlength_vneg N HN) as HN'.
  unfold refract.
  rewrite (refract_locals_unit N N ior HN HN).
  rewrite (refract_locals_unit (vneg N) N ior HN' HN).
  rewrite dotProduct_vneg_l.
  apply vlength_unit in HN. rewrite HN.
  assert (E1 : Rltb 1 0 = false) by (apply Rltb_false; lra).
  assert (E2 : Rltb (- (1)) 0 = true) by (apply Rltb_true; lra).
  rewrite E1, E2. cbv zeta. cbn [s0 s1 sadd ssub smul sdiv sqrtf sltb R_scalar].
  replace (1 - ior / 1 * (ior / 1) * (1 - 1 * 1)) with 1 by field.
  replace (1 - 1 / ior * (1 / ior) * (1 - - - (1) * - - (1))) with 1 by (field; lra).
  assert (E3 : Rltb 1 0 = false) by (apply Rltb_false; lra).
  rewrite E3, sqrt_1.
  destruct N as [nx ny nz]. unfold vadd, sscale, vneg. cbn.
  split; f_equal; field; lra.
Qed.

(** X7: the discriminant is negative only for a ray that leaves the
    denser side: against the normal with [ior < 1], or along it with
    [ior > 1].  No unit length is needed: the cosine is clamped. *)
Theorem refract_total_reflection_side :
  forall (I N : Vec3 R) (ior : R),
    0 < ior ->
    refract_k I N ior < 0 ->
    (dotProduct I N < 0 /\ ior < 1) \/ (0 <= dotProduct I N /\ 1 < ior).
Proof.
  intros I N ior Hior Hk. unfold refract_k, refract_locals in Hk. cbv zeta in Hk.
  destruct (clamp_spec (dotProduct I N)) as (Hb & Hneg & Hpos & _).
  set (c0 := smin (smax (sneg s1) (dotProduct I N)) s1) in *.
  cbn [s0 s1 sadd ssub smul sdiv sneg sltb R_scalar] in Hk.
  destruct (Rltb c0 0) eqn:Hc;
    [apply Rltb_true in Hc | apply Rltb_false in Hc].
  - left. assert (Hd : dotProduct I N < 0).
    { destruct (Rlt_dec (dotProduct I N) 0) as [Hlt|Hge]; [exact Hlt|].
      apply Rnot_lt_le in Hge. specialize (Hpos Hge). lra. }
    split; [exact Hd|].
    destruct (Rlt_dec ior 1) as [Hlt|Hge]; [exact Hlt|]. exfalso.
    apply Rnot_lt_le in Hge.
    assert (He : 0 < 1 / ior <= 1).
    { split; [apply Rdiv_lt_0_compat; lra|].
      apply (Rmult_le_reg_r ior); [lra|]. field_simplify; lra. }
    set (eta := 1 / ior) in *.
    assert (H1 : 0 <= 1 - - c0 * - c0) by nra.
    assert (H2 : eta * eta <= 1) by nra.
    assert (H3 : eta * eta * (1 - - c0 * - c0) <= 1 - - c0 * - c0) by nra.
    nra.
  - right. assert (Hd : 0 <= dotProduct I N).
    { destruct (Rlt_dec (dotProduct I N) 0) as [Hlt|Hge]; [|lra].
      specialize (Hneg Hlt). lra. }
    split; [exact Hd|].
    destruct (Rlt_dec 1 ior) as [Hlt|Hge]; [exact Hlt|]. exfalso.
    apply Rnot_lt_le in Hge.
    replace (ior / 1) with ior in Hk by field.
    assert (H1 : 0 <= 1 - c0 * c0) by nra.
    assert (H2 : ior * ior <= 1) by nra.
    assert (H3 : ior * ior * (1 - c0 * c0) <= 1 - c0 * c0) by nra.
    nra.
Qed.

(** *** The local frame and the samples in world space *)

Lemma crossProduct_dot_l (u v : Vec3 R) : dotProduct u (crossProduct u v) = 0.
Proof. destruct u, v. cbn. ring. Qed.

Lemma crossProduct_dot_r (u v : Vec3 R) : dotProduct v (crossProduct u v) = 0.
Proof. destruct u, v. cbn. ring. Qed.

Lemma crossProduct_norm (u v : Vec3 R) :
  dotProduct (crossProduct u v) (crossProduct u v)
  = dotProduct u u * dotProduct v v - dotProduct u v * dotProduct u v.
Proof. destruct u, v. cbn. ring. Qed.

(** The tangent of a unit normal is a unit vector orthogonal to it. *)
Lemma tangent_frame (N : Vec3 R) :
  vlength N = 1 ->
  dotProduct N (fst (createCoordinateSystem N)) = 0 /\
  dotProduct (fst (createCoordinateSystem N)) (fst (createCoordinateSystem N)) = 1.
Proof.
  intros HN. apply vlength_unit in HN. destruct N as [nx ny nz].
  unfold createCoordinateSystem, dotProduct, vdiv in *. cbn in *.
  destruct (Rltb (Rabs ny) (Rabs nx)) eqn:Hb; cbn.
  - apply Rltb_true in Hb.
    assert (Hx : nx <> 0).
    { intros ->. rewrite Rabs_R0 in Hb. pose proof (Rabs_pos ny). lra. }
    assert (Hpos : 0 < nx * nx + nz * nz) by nra.
    pose proof (sqrt_lt_R0 _ Hpos) as Hd.
    pose proof (sqrt_sqrt _ (Rlt_le _ _ Hpos)) as Hdd.
    set (d := sqrt (nx * nx + nz * nz)) in *.
    split; [field; lra|].
    replace (nz / d * (nz / d) + 0 / d * (0 / d) + - nx / d * (- nx / d))
      with ((nx * nx + nz * nz) / (d * d)) by (field; lra).
    rewrite Hdd. field. lra.
  - apply Rltb_false in Hb.
    assert (Hpos : 0 < ny * ny + nz * nz).
    { destruct (Req_dec ny 0) as [-> | Hy]; [|nra].
      rewrite Rabs_R0 in Hb. pose proof (Rabs_pos nx).
      destruct (Req_dec nx 0) as [-> | Hx]; [nra|].
      pose proof (Rabs_pos_lt _ Hx). lra. }
    pose proof (sqrt_lt_R0 _ Hpos) as Hd.
    pose proof (sqrt_sqrt _ (Rlt_le _ _ Hpos)) as Hdd.
    set (d := sqrt (ny * ny + nz * nz)) in *.
    split; [field; lra|].
    replace (0 / d * (0 / d) + - nz / d * (- nz / d) + ny / d * (ny / d))
      with ((ny * ny + nz * nz) / (d * d)) by (field; lra).
    rewrite Hdd. field. lra.
Qed.

(** In an orthonormal frame the world-space image of a local vector has
    the local Y as its component along the normal, and the same length. *)
Lemma toWorld_frame (s N Nt Nb : Vec3 R) :
  dotProduct N N = 1 -> dotProduct Nt Nt = 1 -> dotProduct Nb Nb = 1 ->
  dotProduct N Nt = 0 -> dotProduct N Nb = 0 -> dotProduct Nt Nb = 0 ->
  dotProduct (toWorld s N Nt Nb) N = vy s /\
  dotProduct (toWorld s N Nt Nb) (toWorld s N Nt Nb) = dotProduct s s.
Proof.
  intros HN Ht Hb HNt HNb Htb.
  assert (E1 : dotProduct (toWorld s N Nt Nb) N
               = vx s * dotProduct N Nb + vy s * dotProduct N N + vz s * dotProduct N Nt).
  { destruct s, N, Nt, Nb. cbn. ring. }
  assert (E2 : dotProduct (toWorld s N Nt Nb) (toWorld s N Nt Nb)
               = vx s * vx s * dotProduct Nb Nb + vy s * vy s * dotProduct N N
                 + vz s * vz s * dotProduct Nt Nt
                 + 2 * (vx s * vy s) * dotProduct N Nb
                 + 2 * (vx s * vz s) * dotProduct Nt Nb
                 + 2 * (vy s * vz s) * dotProduct N Nt).
  { destruct s, N, Nt, Nb. cbn. ring. }
  rewrite E1, E2, HN, Ht, Hb, HNt, HNb, Htb.
  split; [ring|]. destruct s. cbn. ring.
Qed.

Lemma uniformSampleHemisphere_norm (r1 r2 : R) :
  0 <= r1 < 1 ->
  dotProduct (uniformSampleHemisphere r1 r2) (uniformSampleHemisphere r1 r2) = 1.
Proof.
  intros H1. unfold uniformSampleHemisphere, dotProduct. cbn.
  assert (Hs : 0 <= 1 - r1 * r1) by nra.
  pose proof (sqrt_sqrt _ Hs) as Hss.
  pose proof (sin2_cos2 (2 * PI * r2)) as Hsc. unfold Rsqr in Hsc.
  set (s := sqrt (1 - r1 * r1)) in *.
  set (phi := 2 * PI * r2) in *.
  replace (s * cos phi * (s * cos phi) + r1 * r1 + s * sin phi * (s * sin phi))
    with (s * s * (sin phi * sin phi + cos phi * cos phi) + r1 * r1) by ring.
  rewrite Hsc, Hss. ring.
Qed.

(** X8: for a unit normal and [r1], [r2] in [0,1), the direction that the
    diffuse loop of [castRay] samples is a unit vector whose cosine with
    the normal is [r1]: it lies in the hemisphere of the normal. *)
Theorem diffuse_sample_direction :
  forall (N : Vec3 R) (r1 r2 : R),
    vlength N = 1 -> 0 <= r1 < 1 -> 0 <= r2 < 1 ->
    let Nt := fst (createCoordinateSystem N) in
    let Nb := snd (createCoordinateSystem N) in
    let sampleWorld := toWorld (uniformSampleHemisphere r1 r2) N Nt Nb in
    vlength sampleWorld = 1 /\
    dotProduct sampleWorld N = r1 /\
    0 <= dotProduct sampleWorld N.
Proof.
  intros N r1 r2 HN H1 H2 Nt Nb sampleWorld.
  destruct (tangent_frame N HN) as (HNt & Ht). fold Nt in HNt, Ht.
  pose proof HN as HN1. apply vlength_unit in HN1.
  assert (HNb : Nb = crossProduct N Nt) by reflexivity.
  destruct (toWorld_frame (uniformSampleHemisphere r1 r2) N Nt Nb) as (Hy & Hl);
    try assumption.
  - rewrite HNb, crossProduct_norm, HN1, Ht, HNt. ring.
  - rewrite HNb. apply crossProduct_dot_l.
  - rewrite HNb. apply crossProduct_dot_r.
  - fold sampleWorld in Hy, Hl. rewrite vlength_unit, Hl, Hy.
    split; [apply uniformSampleHemisphere_norm; exact H1|].
    cbn. split; [reflexivity | lra].
Qed.
End RealOptics.

(** ** The cost of a run *)

Section RunFacts.
Context {T Gen : Type}.

Lemma runs_mono {A} (R R' : St T Gen -> St T Gen -> Prop) (m : M T Gen A) :
  (forall s s', R s s' -> R' s s') -> runs R m -> runs R' m.
Proof.
  intros Himp Hm st. destruct (Hm st) as (a & st' & E & HR). eauto.
Qed.

Lemma runs_bind {A B} (R1 R2 R3 : St T Gen -> St T Gen -> Prop)
    (m : M T Gen A) (k : A -> M T Gen B) :
  (forall s1 s2 s3, R1 s1 s2 -> R2 s2 s3 -> R3 s1 s3) ->
  runs R1 m -> (forall a, runs R2 (k a)) -> runs R3 (bind m k).
Proof.
  intros Hc Hm Hk st.
  destruct (Hm st) as (a & st1 & E1 & H1).
  destruct (Hk a st1) as (b & st2 & E2 & H2).
  exists b, st2. unfold bind. rewrite E1. eauto.
Qed.

Lemma count_casts_app (evs1 evs2 : list (Event T)) :
  count_casts (evs1 ++ evs2) = (count_casts evs1 + count_casts evs2)%nat.
Proof. unfold count_casts. rewrite List.filter_app, List.length_app. reflexivity. Qed.

Lemma casts_within_refl (st : St T Gen) : casts_within 0 st st.
Proof. exists []. rewrite app_nil_r. split; [reflexivity | cbn; lia]. Qed.

Lemma casts_within_trans (a b : nat) (s1 s2 s3 : St T Gen) :
  casts_within a s1 s2 -> casts_within b s2 s3 -> casts_within (a + b) s1 s3.
Proof.
  intros (e1 & T1 & C1) (e2 & T2 & C2). exists (e1 ++ e2). split.
  - rewrite T2, T1, app_assoc. reflexivity.
  - rewrite count_casts_app. lia.
Qed.

Lemma casts_ret {A} (a : A) : runs (casts_within 0) (ret (Gen := Gen) (T := T) a).
Proof. intros st. exists a, st. split; [reflexivity | apply casts_within_refl]. Qed.

Lemma casts_le {A} (a b : nat) (m : M T Gen A) :
  (a <= b)%nat -> runs (casts_within a) m -> runs (casts_within b) m.
Proof.
  intros Hab. apply runs_mono. intros s s' (evs & Ht & Hc).
  exists evs. split; [exact Ht | lia].
Qed.

Lemma casts_bind {A B} (a b : nat) (m : M T Gen A) (k : A -> M T Gen B) :
  runs (casts_within a) m -> (forall x, runs (casts_within b) (k x)) ->
  runs (casts_within (a + b)) (bind m k).
Proof. apply runs_bind. apply casts_within_trans. Qed.

Lemma casts_emit (e : Event T) :
  runs (Gen := Gen) (casts_within (if is_cast e then 1 else 0)) (emit e).
Proof.
  intros st. exists tt, (mkSt (gen st) (trace st ++ [e])).
  split; [reflexivity|]. exists [e]. split; [reflexivity|].
  unfold count_casts. cbn. destruct (is_cast e); cbn; lia.
Qed.

Lemma casts_for_loop {A} (r : nat) (body : Z -> A -> M T Gen A) :
  (forall i a, runs (casts_within r) (body i a)) ->
  forall count i a, runs (casts_within (count * r)) (for_loop count i body a).
Proof.
  intros Hb count. induction count as [|c IH]; intros i a; cbn [for_loop Nat.mul].
  - apply casts_ret.
  - apply casts_bind; [apply Hb | intros a'; apply IH].
Qed.
End RunFacts.

Lemma calls_bound_closed_form (n : nat) :
  (130 * calls_bound n + 1 = 131 ^ S n)%nat.
Proof.
  induction n as [|n IH]; [reflexivity|].
  cbn [calls_bound]. rewrite Nat.pow_succ_r'. lia.
Qed.

Section CostFacts.
Context {T : Type} `{Scalar T} `{World T}.

Lemma casts_rand : runs (casts_within 0) rand.
Proof.
  intros st. unfold rand. destruct (draw (gen st)) as [r g].
  exists r, (mkSt g (trace st)). split; [reflexivity|].
  exists []. cbn. rewrite app_nil_r. split; [reflexivity | lia].
Qed.

Lemma casts_query scene orig dir : runs (casts_within 0) (query scene orig dir).
Proof.
  unfold query. apply (casts_bind 0 0); [apply (casts_emit (EvIntersect orig dir))|].
  intros _. apply casts_ret.
Qed.

(** One level of [castRay]: its own entry, and at most 131 calls one
    level deeper. *)
Lemma casts_castRay_body (r : nat) rec orig dir scene options depth :
  ((depth <= maxDepth options)%Z ->
   forall o d, runs (casts_within r) (rec o d (wrap32 (depth + 1)))) ->
  runs (casts_within (1 + 131 * r)) (castRay_body rec orig dir scene options depth).
Proof.
  intros Hrec. unfold castRay_body.
  apply (casts_bind 1 (131 * r)); [apply (casts_emit (EvCast depth)) | intros _].
  destruct (Z.gtb_spec depth (maxDepth options)) as [Hgt|Hle];
    [apply (casts_le 0); [lia | apply casts_ret]|].
  specialize (Hrec Hle).
  apply (casts_le (0 + 131 * r)); [lia|].
  apply casts_bind; [apply casts_query|].
  intros [[[[tnear index] uv] hitObject]|];
    [|apply (casts_le 0); [lia | apply casts_ret]].
  cbv zeta.
  destruct (getSurfaceProperties hitObject (vadd orig (vscale dir tnear)) dir index uv)
    as [[[hitNormal tc] Color] m].
  destruct (self_luminous m); [apply (casts_le 0); [lia | apply casts_ret]|].
  apply (casts_le (N_samples * r + (r + (r + r)))); [unfold N_samples; lia|].
  apply casts_bind.
  { destruct (diffuse m); [|apply (casts_le 0); [lia | apply casts_ret]].
    destruct (createCoordinateSystem hitNormal) as [Nt Nb].
    apply (casts_le (N_samples * r + 0)); [lia|].
    apply casts_bind; [|intros; apply casts_ret].
    apply casts_for_loop. intros i acc. unfold diffuse_sample.
    apply (casts_bind 0 r); [apply casts_rand | intros r1].
    apply (casts_bind 0 r); [apply casts_rand | intros r2].
    apply (casts_le (r + 0)); [lia|].
    apply casts_bind; [apply Hrec | intros; apply casts_ret]. }
  intros hitColor1. apply casts_bind.
  { destruct (specular m); [|apply (casts_le 0); [lia | apply casts_ret]].
    apply (casts_le (r + 0)); [lia|].
    apply casts_bind; [apply Hrec | intros; apply casts_ret]. }
  intros hitColor2.
  destruct (transparent m); [|apply (casts_le 0); [lia | apply casts_ret]].
  apply casts_bind; [apply Hrec | intros refractionColor].
  apply (casts_le (r + 0)); [lia|].
  apply casts_bind; [apply Hrec | intros; apply casts_ret].
Qed.

Lemma casts_castRay (scene : Scene) (options : Options T Matrix44) :
  (maxDepth options < INT_MAX)%Z ->
  forall (fuel : nat) (orig dir : Vec3 T) (depth : Z),
    int_range depth ->
    (Z.to_nat (maxDepth options + 1 - depth) < fuel)%nat ->
    runs (casts_within (calls_bound (Z.to_nat (maxDepth options + 1 - depth))))
         (castRay fuel orig dir scene options depth).
Proof.
  intros Hmax fuel.
  induction fuel as [|fuel IH]; intros orig dir depth Hrange Hfuel; [lia|].
  rewrite castRay_S.
  destruct (Z.to_nat (maxDepth options + 1 - depth)) as [|n] eqn:En.
  - apply (casts_castRay_body 0). intros Hle. lia.
  - cbn [calls_bound]. apply casts_castRay_body. intros Hle o d.
    assert (Hw : wrap32 (depth + 1) = (depth + 1)%Z).
    { apply wrap32_id. unfold int_range, INT_MIN, INT_MAX in *. lia. }
    rewrite Hw.
    replace n with (Z.to_nat (maxDepth options + 1 - (depth + 1))) by lia.
    apply IH; [unfold int_range, INT_MIN, INT_MAX in *; lia | lia].
Qed.

(** X9: when [options.maxDepth] is below the largest [int], a run of
    [castRay] with [n = maxDepth + 1 - depth] levels left enters [castRay] at
    most [(131^(n+1) - 1) / 130] times: 128 + 1 + 2 calls per level. *)
Theorem castRay_call_bound :
  forall (scene : Scene) (options : Options T Matrix44)
         (orig dir : Vec3 T) (depth : Z) (st : St T Gen) (fuel : nat),
    (maxDepth options < INT_MAX)%Z ->
    int_range depth ->
    (Z.to_nat (maxDepth options + 1 - depth) < fuel)%nat ->
    exists (c : Vec3 T) (st' : St T Gen) (evs : list (Event T)),
      castRay fuel orig dir scene options depth st = Done (c, st') /\
      trace st' = trace st ++ evs /\
      (130 * count_casts evs + 1
       <= 131 ^ S (Z.to_nat (maxDepth options + 1 - depth)))%nat.
Proof.
  intros scene options orig dir depth st fuel Hmax Hrange Hfuel.
  destruct (casts_castRay scene options Hmax fuel orig dir depth Hrange Hfuel st)
    as (c & st' & E & evs & Ht & Hc).
  exists c, st', evs. repeat split; auto.
  rewrite <- calls_bound_closed_form. lia.
Qed.
End CostFacts.

(** ** The random numbers a run consumes *)

Section DrawFacts.
Context {T : Type} `{Scalar T} `{World T}.

Lemma after_draws_add (a b : nat) (g : Gen) :
  after_draws (a + b) g = after_draws b (after_draws a g).
Proof. unfold after_draws. rewrite Nat.add_comm. apply Nat.iter_add. Qed.

Lemma draws_ret {A} (a : A) : runs (draws_taken 0) (ret a).
Proof. intros st. exists a, st. split; reflexivity. Qed.

Lemma draws_cast {A} (n n' : nat) (m : M T Gen A) :
  n = n' -> runs (draws_taken n) m -> runs (draws_taken n') m.
Proof. intros ->. auto. Qed.

Lemma draws_bind {A B} (a b : nat) (m : M T Gen A) (k : A -> M T Gen B) :
  runs (draws_taken a) m -> (forall x, runs (draws_taken b) (k x)) ->
  runs (draws_taken (a + b)) (bind m k).
Proof.
  apply runs_bind. unfold draws_taken. intros s1 s2 s3 H1 H2.
  rewrite H2, H1. symmetry. apply after_draws_add.
Qed.

Lemma draws_emit (e : Event T) : runs (draws_taken 0) (emit e).
Proof. intros st. eexists _, _. split; reflexivity. Qed.

Lemma draws_rand : runs (draws_taken 1) rand.
Proof.
  intros st. unfold rand, draws_taken, after_draws. cbn.
  destruct (draw (gen st)) as [r g]. eexists _, _. split; reflexivity.
Qed.

Lemma draws_query scene orig dir : runs (draws_taken 0) (query scene orig dir).
Proof.
  unfold query. apply (draws_bind 0 0); [apply draws_emit | intros _; apply draws_ret].
Qed.

Lemma draws_for_loop {A} (r : nat) (body : Z -> A -> M T Gen A) :
  (forall i a, runs (draws_taken r) (body i a)) ->
  forall count i a, runs (draws_taken (count * r)) (for_loop count i body a).
Proof.
  intros Hb count. induction count as [|c IH]; intros i a; cbn [for_loop Nat.mul].
  - apply draws_ret.
  - apply draws_bind; [apply Hb | intros a'; apply IH].
Qed.

(** A call past the depth limit takes no draw. *)
Lemma draws_past_limit fuel orig dir scene options depth :
  (depth > maxDepth options)%Z ->
  runs (draws_taken 0) (castRay (S fuel) orig dir scene options depth).
Proof.
  intros Hd st. rewrite (castRay_past_limit fuel orig dir scene options depth st Hd).
  eexists _, _. split; reflexivity.
Qed.

(** One level of [castRay] in a scene without diffuse surfaces takes no
    draw when the levels below take none. *)
Lemma draws_castRay_body_no_diffuse rec orig dir scene options depth :
  (forall obj p d i uv, diffuse (snd (getSurfaceProperties obj p d i uv)) = false) ->
  ((depth <= maxDepth options)%Z ->
   forall o d, runs (draws_taken 0) (rec o d (wrap32 (depth + 1)))) ->
  runs (draws_taken 0) (castRay_body rec orig dir scene options depth).
Proof.
  intros Hnd Hrec. unfold castRay_body.
  apply (draws_bind 0 0); [apply draws_emit | intros _].
  destruct (Z.gtb_spec depth (maxDepth options)) as [Hgt|Hle]; [apply draws_ret|].
  specialize (Hrec Hle).
  apply (draws_bind 0 0); [apply draws_query|].
  intros [[[[tnear index] uv] hitObject]|]; [|apply draws_ret].
  cbv zeta.
  pose proof (Hnd hitObject (vadd orig (vscale dir tnear)) dir index uv) as Hm.
  destruct (getSurfaceProperties hitObject (vadd orig (vscale dir tnear)) dir index uv)
    as [[[hitNormal tc] Color] m].
  cbn [snd] in Hm. rewrite Hm.
  destruct (self_luminous m); [apply draws_ret|].
  apply (draws_bind 0 0); [apply draws_ret | intros hitColor1].
  apply (draws_bind 0 0).
  { destruct (specular m); [|apply draws_ret].
    apply (draws_bind 0 0); [apply Hrec | intros; apply draws_ret]. }
  intros hitColor2.
  destruct (transparent m); [|apply draws_ret].
  apply (draws_bind 0 0); [apply Hrec | intros refractionColor].
  apply (draws_bind 0 0); [apply Hrec | intros; apply draws_ret].
Qed.

Lemma draws_castRay_no_diffuse (scene : Scene) (options : Options T Matrix44) :
  (forall obj p d i uv, diffuse (snd (getSurfaceProperties obj p d i uv)) = false) ->
  (maxDepth options < INT_MAX)%Z ->
  forall (fuel : nat) (orig dir : Vec3 T) (depth : Z),
    int_range depth ->
    (Z.to_nat (maxDepth options + 1 - depth) < fuel)%nat ->
    runs (draws_taken 0) (castRay fuel orig dir scene options depth).
Proof.
  intros Hnd Hmax fuel.
  induction fuel as [|fuel IH]; intros orig dir depth Hrange Hfuel; [lia|].
  rewrite castRay_S. apply draws_castRay_body_no_diffuse; [exact Hnd|].
  intros Hle o d.
  assert (Hw : wrap32 (depth + 1) = (depth + 1)%Z).
  { apply wrap32_id. unfold int_range, INT_MIN, INT_MAX in *. lia. }
  rewrite Hw. apply IH; [unfold int_range, INT_MIN, INT_MAX in *; lia | lia].
Qed.

(** X10: a hit at [depth = maxDepth] on a material that is diffuse and
    not self-luminous takes exactly 2 * 128 draws from the generator,
    whatever its other flags. *)
Theorem castRay_diffuse_leaf_draws :
  forall (fuel : nat) (orig dir : Vec3 T) (scene : Scene)
         (options : Options T Matrix44) (depth : Z) (st : St T Gen)
         (tnear : T) (index : Z) (uv : Vec2) (hitObject : Object)
         (hitNormal : Vec3 T) (hitTexCoordinates : Vec2) (Color : Vec3 T)
         (m : Material T),
    depth = maxDepth options ->
    (maxDepth options < INT_MAX)%Z ->
    int_range depth ->
    intersect scene orig dir = Some (tnear, index, uv, hitObject) ->
    getSurfaceProperties hitObject (vadd orig (vscale dir tnear)) dir index uv
      = (hitNormal, hitTexCoordinates, Color, m) ->
    self_luminous m = false ->
    diffuse m = true ->
    exists (c : Vec3 T) (st' : St T Gen),
      castRay (S (S fuel)) orig dir scene options depth st = Done (c, st') /\
      gen st' = after_draws (2 * N_samples) (gen st).
Proof.
  intros fuel orig dir scene options depth st tnear index uv hitObject
         hitNormal tc Color m Hd Hmax Hrange Hhit Hsurf Hlum Hdiff.
  assert (Hw : (wrap32 (depth + 1) > maxDepth options)%Z).
  { rewrite wrap32_id; unfold int_range, INT_MIN, INT_MAX in *; lia. }
  assert (Hrec : forall o d,
             runs (draws_taken 0)
                  (castRay (S fuel) o d scene options (wrap32 (depth + 1)))).
  { intros o d. apply draws_past_limit. exact Hw. }
  rewrite castRay_S. unfold castRay_body.
  unfold bind at 1. unfold emit at 1.
  destruct (Z.gtb_spec depth (maxDepth options)) as [Hgt|_]; [lia|].
  unfold bind at 1. unfold query at 1. unfold bind at 1. unfold emit at 1.
  unfold ret at 1. cbn [trace gen].
  rewrite Hhit. cbv zeta. rewrite Hsurf, Hlum, Hdiff.
  match goal with
  | |- exists c st', ?tail ?s = Done (c, st') /\ _ =>
    assert (Hr : runs (draws_taken (2 * N_samples)) tail)
  end.
  { apply (draws_cast ((N_samples * (1 + (1 + (0 + 0))) + 0) + (0 + 0)));
      [reflexivity|].
    apply draws_bind.
    { destruct (createCoordinateSystem hitNormal) as [Nt Nb].
      apply draws_bind; [|intros; apply draws_ret].
      apply draws_for_loop. intros i acc. unfold diffuse_sample.
      apply draws_bind; [apply draws_rand | intros r1].
      apply draws_bind; [apply draws_rand | intros r2].
      apply draws_bind; [apply Hrec | intros; apply draws_ret]. }
    intros hitColor1. apply draws_bind.
    { destruct (specular m); [|apply draws_ret].
      apply (draws_bind 0 0); [apply Hrec | intros; apply draws_ret]. }
    intros hitColor2.
    destruct (transparent m); [|apply draws_ret].
    apply (draws_bind 0 0); [apply Hrec | intros refractionColor].
    apply (draws_bind 0 0); [apply Hrec | intros; apply draws_ret]. }
  match goal with
  | |- exists c st', ?tail ?s = Done (c, st') /\ _ =>
    destruct (Hr s) as (c & st' & E & Hg)
  end.
  exists c, st'. split; [exact E | exact Hg].
Qed.
End DrawFacts.

(** ** What a call asks of the scene *)

Section QueryFacts.
Context {T : Type} `{Scalar T} `{World T}.

Lemma oblivious_grows {A} (m : M T Gen A) :
  oblivious m ->
  forall st a st', m st = Done (a, st') -> exists evs, trace st' = trace st ++ evs.
Proof.
  intros Ho [g t] a st' E. specialize (Ho g t t). rewrite E in Ho.
  cbn in Ho. destruct Ho as (_ & _ & evs & E1 & _). eauto.
Qed.

(** The part of one level of [castRay] that follows the intersection
    query never reads the log. *)
Ltac oblivious_walk Hrec :=
  repeat first
    [ apply oblivious_ret
    | apply oblivious_emit
    | apply oblivious_rand
    | apply oblivious_query
    | apply Hrec
    | apply oblivious_for_loop; intros ? ?
    | apply oblivious_bind; [|intros ?]
    | progress unfold diffuse_sample
    | progress cbv zeta
    | match goal with
      | |- oblivious (if ?b then _ else _) => destruct b
      | |- oblivious (match ?x with Some _ => _ | None => _ end) => destruct x
      | |- oblivious (match ?x with pair _ _ => _ end) => destruct x
      end ].

(** A call within the depth limit logs its entry, then a query for its
    own ray, before anything else. *)
Lemma castRay_log_prefix fuel orig dir scene options depth st c st' :
  (depth <= maxDepth options)%Z ->
  castRay fuel orig dir scene options depth st = Done (c, st') ->
  exists rest,
    trace st' = trace st ++ EvCast depth :: EvIntersect orig dir :: rest.
Proof.
  intros Hle E. destruct fuel as [|fuel]; [discriminate|].
  rewrite castRay_S in E. unfold castRay_body in E.
  unfold bind at 1 in E. unfold emit at 1 in E.
  destruct (Z.gtb_spec depth (maxDepth options)) as [Hgt|_]; [lia|].
  unfold bind at 1 in E. unfold query at 1 in E. unfold bind at 1 in E.
  unfold emit at 1 in E. unfold ret at 1 in E. cbn [trace gen] in E.
  match type of E with
  | ?tail ?s = _ =>
    assert (Ho : oblivious tail)
      by (oblivious_walk (fun o d dp => oblivious_castRay fuel o d scene options dp))
  end.
  destruct (oblivious_grows _ Ho _ _ _ E) as (rest & Ht).
  exists rest. rewrite Ht. cbn [trace]. rewrite <- !app_assoc. reflexivity.
Qed.

(** X11: total internal reflection is not special-cased.  For a hit
    below the depth limit on a transparent material that is not
    self-luminous, with a negative discriminant, [castRay] goes on to query
    the scene from the hit point in the direction [normalize] makes of the
    zero vector. *)
Theorem castRay_total_reflection_recurses :
  forall (fuel : nat) (orig dir : Vec3 T) (scene : Scene)
         (options : Options T Matrix44) (depth : Z) (st : St T Gen)
         (tnear : T) (index : Z) (uv : Vec2) (hitObject : Object)
         (hitNormal : Vec3 T) (hitTexCoordinates : Vec2) (Color : Vec3 T)
         (m : Material T),
    (depth < maxDepth options)%Z ->
    (maxDepth options < INT_MAX)%Z ->
    int_range depth ->
    (Z.to_nat (maxDepth options + 1 - depth) < fuel)%nat ->
    intersect scene orig dir = Some (tnear, index, uv, hitObject) ->
    getSurfaceProperties hitObject (vadd orig (vscale dir tnear)) dir index uv
      = (hitNormal, hitTexCoordinates, Color, m) ->
    self_luminous m = false ->
    transparent m = true ->
    (refract_k dir hitNormal (ni_optical_density m) <? s0)%sc = true ->
    exists (c : Vec3 T) (st' : St T Gen) (evs : list (Event T)),
      castRay fuel orig dir scene options depth st = Done (c, st') /\
      trace st' = trace st ++ evs /\
      In (EvIntersect (vadd orig (vscale dir tnear)) (normalize vzero)) evs.
Proof.
  intros fuel orig dir scene options depth st tnear index uv hitObject
         hitNormal tc Color m Hd Hmax Hrange Hfuel Hhit Hsurf Hlum Htr Hk.
  destruct (castRay_emits scene options Hmax fuel orig dir depth Hrange Hfuel st)
    as (c & st' & evs0 & E & _ & _).
  pose proof (oblivious_castRay fuel orig dir scene options depth
                (gen st) (trace st) []) as Ho.
  destruct st as [g t]. cbn [gen trace] in *. rewrite E in Ho.
  destruct (castRay fuel orig dir scene options depth (mkSt g []))
    as [[c2 s2]| |] eqn:E2; cbn in Ho; try contradiction.
  destruct Ho as (_ & _ & evs & Ht & Ht2).
  exists c, st', evs. split; [exact E|]. split; [exact Ht|].
  cbn [app] in Ht2. rewrite <- Ht2. clear Ht Ht2 E evs evs0.
  destruct fuel as [|fuel]; [discriminate|].
  rewrite castRay_S in E2. unfold castRay_body in E2.
  unfold bind at 1 in E2. unfold emit at 1 in E2.
  destruct (Z.gtb_spec depth (maxDepth options)) as [Hgt|_]; [lia|].
  unfold bind at 1 in E2. unfold query at 1 in E2. unfold bind at 1 in E2.
  unfold emit at 1 in E2. unfold ret at 1 in E2. cbn [trace gen] in E2.
  rewrite Hhit in E2. cbv zeta in E2. rewrite Hsurf, Hlum, Htr in E2.
  rewrite (refract_negative_k _ _ _ Hk) in E2.
  unfold bind at 1 in E2.
  match type of E2 with
  | match ?part ?s with _ => _ end = _ => destruct (part s) as [[hitColor1 s3]| |]
  end; try discriminate.
  unfold bind at 1 in E2.
  match type of E2 with
  | match ?part ?s with _ => _ end = _ => destruct (part s) as [[hitColor2 s4]| |]
  end; try discriminate.
  unfold bind at 1 in E2.
  destruct (castRay fuel (vadd orig (vscale dir tnear)) (normalize vzero)
                    scene options (wrap32 (depth + 1)) s4)
    as [[refractionColor s5]| |] eqn:Er; try discriminate.
  unfold bind at 1 in E2.
  destruct (castRay fuel (vadd orig (vscale dir tnear))
                    (normalize (reflect dir hitNormal))
                    scene options (wrap32 (depth + 1)) s5)
    as [[reflectionColor s6]| |] eqn:Ef; try discriminate.
  unfold ret in E2. injection E2 as _ <-.
  assert (Hw : wrap32 (depth + 1) = (depth + 1)%Z).
  { apply wrap32_id. unfold int_range, INT_MIN, INT_MAX in *. lia. }
  rewrite Hw in Er, Ef.
  assert (Hle : (depth + 1 <= maxDepth options)%Z) by lia.
  destruct (castRay_log_prefix _ _ _ _ _ _ _ _ _ Hle Er) as (rest & Hp).
  destruct (oblivious_grows _ (oblivious_castRay fuel _ _ scene options _) _ _ _ Ef)
    as (evs6 & H6).
  rewrite H6, Hp. apply List.in_or_app. left.
  apply List.in_or_app. right. right. left. reflexivity.
Qed.
End QueryFacts.

(** ** The frame renderer: sizes of the buffer and scenes without randomness *)

Section RenderFacts.
Context {T : Type} `{Scalar T} `{World T}.

(** A miss within the depth limit, as the renderer sees it. *)
Lemma castRay_no_hit (fuel : nat) orig dir scene options depth st :
  (depth <= maxDepth options)%Z ->
  intersect scene orig dir = None ->
  castRay (S fuel) orig dir scene options depth st
  = Done (backgroundColor options, after_query orig dir depth st).
Proof.
  intros Hd Hmiss. rewrite castRay_S. unfold castRay_body.
  unfold bind at 1. unfold emit at 1.
  destruct (Z.gtb_spec depth (maxDepth options)) as [Hgt|_]; [lia|].
  unfold bind at 1. unfold query at 1. unfold bind at 1. unfold emit at 1.
  unfold ret at 1. cbn [trace gen]. rewrite Hmiss.
  unfold after_query. rewrite <- app_assoc. reflexivity.
Qed.

(** In an empty scene every primary ray returns the background color and
    leaves the generator alone, whatever the depth limit. *)
Lemma castRay_primary_empty (fuel : nat) options scene :
  (forall o d, intersect scene o d = None) ->
  forall (dir : Vec3 T) (st : St T Gen),
    exists c st1 evs st1',
      castRay (S fuel) (cameraOrigin options) dir scene options 0 st = Done (c, st1) /\
      trace st1 = trace st ++ evs /\ written_slots evs = [] /\
      castRay (S fuel) (cameraOrigin options) dir scene options 0 (mkSt (gen st) [])
      = Done (c, st1') /\
      gen st1' = gen st1.
Proof.
  intros Hempty dir st.
  destruct (Z.gtb_spec 0 (maxDepth options)) as [Hgt|Hle].
  - rewrite !castRay_past_limit by lia.
    eexists _, _, _, _. repeat split; reflexivity.
  - rewrite !castRay_no_hit by auto.
    eexists _, _, _, _. repeat split; reflexivity.
Qed.

Lemma pixel_colors_const fuel options scene (c : Vec3 T) :
  (forall dir g, exists st1,
      castRay fuel (cameraOrigin options) dir scene options 0 (mkSt g [])
      = Done (c, st1) /\ gen st1 = g) ->
  forall coords g,
    pixel_colors fuel options scene coords g
    = Some (List.repeat c (List.length coords), g).
Proof.
  intros Hc coords. induction coords as [|[i j] rest IH]; intros g; cbn; [reflexivity|].
  destruct (Hc (primaryDir options i j) g) as (st1 & E & Hg).
  rewrite E, Hg, IH. reflexivity.
Qed.

(** X12: in a scene where no ray hits anything, [render] fills the buffer
    with the background color and leaves the generator untouched, whatever
    the depth limit (a negative one included). *)
Theorem render_empty_scene :
  forall (fuel : nat) (options : Options T Matrix44) (scene : Scene)
         (pixels : list (Vec3 T)) (st : St T Gen),
    (forall o d, intersect scene o d = None) ->
    List.length pixels = (Z.to_nat (height options) * Z.to_nat (width options))%nat ->
    exists st' : St T Gen,
      render (S fuel) options scene pixels st
      = Done (List.repeat (backgroundColor options)
                (Z.to_nat (height options) * Z.to_nat (width options)), st') /\
      gen st' = gen st.
Proof.
  intros fuel options scene pixels st Hempty Hlen.
  set (w := Z.to_nat (width options)) in *.
  set (h := Z.to_nat (height options)) in *.
  pose proof (castRay_primary_empty fuel options scene Hempty) as Hprim.
  destruct (render_rows_any (S fuel) options scene Hprim w h 0 pixels 0 st)
    as (cs & st' & evs & E & Hp & _ & _); [lia|].
  change (Z.of_nat 0) with 0%Z in E. fold (row_major w h) in Hp.
  rewrite (pixel_colors_const (S fuel) options scene (backgroundColor options)) in Hp.
  - injection Hp as Hcs Hg. rewrite row_major_length in Hcs.
    exists st'. split; [|symmetry; exact Hg].
    unfold render, bind. fold w. fold h. rewrite E. unfold ret. cbn [fst].
    rewrite take_0, drop_ge by lia. cbn [app]. rewrite app_nil_r, Hcs. reflexivity.
  - intros dir g.
    destruct (Hprim dir (mkSt g [])) as (c & st1 & evs1 & st1' & E1 & _ & _ & _ & _).
    destruct (Z.gtb_spec 0 (maxDepth options)) as [Hgt|Hle].
    + rewrite castRay_past_limit by lia. eexists. split; reflexivity.
    + rewrite castRay_no_hit by auto. eexists. split; reflexivity.
Qed.

Lemma pixel_colors_same_gen fuel options scene :
  (forall dir g c st1,
      castRay fuel (cameraOrigin options) dir scene options 0 (mkSt g [])
      = Done (c, st1) -> gen st1 = g) ->
  forall coords g cs g',
    pixel_colors fuel options scene coords g = Some (cs, g') ->
    g' = g /\
    forall k i j,
      coords !! k = Some (i, j) ->
      exists c st1,
        castRay fuel (cameraOrigin options) (primaryDir options i j) scene options 0
                (mkSt g []) = Done (c, st1) /\
        cs !! k = Some c.
Proof.
  intros Hkeep coords. induction coords as [|[i0 j0] rest IH]; intros g cs g' Hc.
  - cbn in Hc. injection Hc as <- <-. split; [reflexivity|]. intros k i j Hk. discriminate.
  - cbn [pixel_colors] in Hc.
    destruct (castRay fuel (cameraOrigin options) (primaryDir options i0 j0)
                      scene options 0 (mkSt g [])) as [[c st1]| |] eqn:E;
      try discriminate.
    pose proof (Hkeep _ _ _ _ E) as Hg. rewrite Hg in Hc.
    destruct (pixel_colors fuel options scene rest g) as [[cs0 g0]|] eqn:E';
      try discriminate.
    injection Hc as <- <-. destruct (IH _ _ _ E') as (-> & Hrest).
    split; [reflexivity|]. intros [|k] i j Hk; cbn in Hk.
    + injection Hk as <- <-. exists c, st1. auto.
    + apply Hrest. exact Hk.
Qed.

(** X13: in a scene without diffuse surfaces [render] takes no draw, and
    every pixel is the color that [castRay] computes for its primary ray on
    its own, from the generator [render] was started with. *)
Theorem render_no_diffuse_independent :
  forall (fuel : nat) (options : Options T Matrix44) (scene : Scene)
         (pixels : list (Vec3 T)) (st : St T Gen),
    (forall obj p d i uv, diffuse (snd (getSurfaceProperties obj p d i uv)) = false) ->
    (maxDepth options < INT_MAX)%Z ->
    (Z.to_nat (maxDepth options + 1) < fuel)%nat ->
    List.length pixels = (Z.to_nat (height options) * Z.to_nat (width options))%nat ->
    exists (out : list (Vec3 T)) (st' : St T Gen),
      render fuel options scene pixels st = Done (out, st') /\
      gen st' = gen st /\
      forall i j : nat,
        (i < Z.to_nat (width options))%nat ->
        (j < Z.to_nat (height options))%nat ->
        exists (c : Vec3 T) (st1 : St T Gen),
          castRay fuel (cameraOrigin options)
                  (primaryDir options (Z.of_nat i) (Z.of_nat j)) scene options 0
                  (mkSt (gen st) []) = Done (c, st1) /\
          out !! (j * Z.to_nat (width options) + i)%nat = Some c.
Proof.
  intros fuel options scene pixels st Hnd Hmax Hfuel Hlen.
  destruct (render_refines fuel options scene pixels st Hmax Hfuel Hlen)
    as (out & st' & evs & E & _ & _ & Hp).
  assert (Hkeep : forall dir g c st1,
             castRay fuel (cameraOrigin options) dir scene options 0 (mkSt g [])
             = Done (c, st1) -> gen st1 = g).
  { intros dir g c st1 E1.
    assert (Hr : runs (draws_taken 0)
                   (castRay fuel (cameraOrigin options) dir scene options 0)).
    { apply draws_castRay_no_diffuse; try assumption.
      - unfold int_range, INT_MIN, INT_MAX. lia.
      - rewrite Z.sub_0_r. exact Hfuel. }
    destruct (Hr (mkSt g [])) as (c' & st1' & E1' & Hg).
    rewrite E1 in E1'. injection E1' as <- <-. exact Hg. }
  destruct (pixel_colors_same_gen fuel options scene Hkeep _ _ _ _ Hp) as (Hg & Hpix).
  exists out, st'. split; [exact E|]. split; [exact Hg|].
  intros i j Hi Hj. apply Hpix. apply row_major_lookup; assumption.
Qed.

(** X14: on a buffer with more than [width * height] slots [render]
    keeps the length and leaves the slots from [width * height] on as they
    were. *)
Theorem render_frame :
  forall (fuel : nat) (options : Options T Matrix44) (scene : Scene)
         (pixels : list (Vec3 T)) (st : St T Gen),
    (maxDepth options < INT_MAX)%Z ->
    (Z.to_nat (maxDepth options + 1) < fuel)%nat ->
    (Z.to_nat (height options) * Z.to_nat (width options) <= List.length pixels)%nat ->
    exists (out : list (Vec3 T)) (st' : St T Gen),
      render fuel options scene pixels st = Done (out, st') /\
      List.length out = List.length pixels /\
      drop (Z.to_nat (height options) * Z.to_nat (width options)) out
      = drop (Z.to_nat (height options) * Z.to_nat (width options)) pixels.
Proof.
  intros fuel options scene pixels st Hmax Hfuel Hlen.
  set (w := Z.to_nat (width options)) in *.
  set (h := Z.to_nat (height options)) in *.
  destruct (render_rows fuel options scene Hmax Hfuel w h 0 pixels 0 st)
    as (cs & st' & evs & E & Hp & _ & _); [lia|].
  change (Z.of_nat 0) with 0%Z in E. fold (row_major w h) in Hp.
  assert (Hcs : List.length cs = (h * w)%nat).
  { rewrite (pixel_colors_length _ _ _ _ _ _ _ Hp). apply row_major_length. }
  exists (cs ++ drop (h * w) pixels), st'. split; [|split].
  - unfold render, bind. fold w. fold h. rewrite E. unfold ret. cbn [fst].
    rewrite take_0. reflexivity.
  - rewrite length_app, length_drop. lia.
  - apply drop_app_length'. symmetry. exact Hcs.
Qed.

Lemma for_loop_skip {A : Type} (body : Z -> A -> M T Gen A) :
  (forall i a st, body i a st = Done (a, st)) ->
  forall count i a st, for_loop count i body a st = Done (a, st).
Proof.
  intros Hb count. induction count as [|c IH]; intros i a st; cbn [for_loop].
  - reflexivity.
  - unfold bind. rewrite Hb. apply IH.
Qed.

(** X15: with a width or a height that is not positive [render] casts no
    ray and writes nothing: buffer and state are returned as they were,
    even on an empty buffer. *)
Theorem render_no_pixels :
  forall (fuel : nat) (options : Options T Matrix44) (scene : Scene)
         (pixels : list (Vec3 T)) (st : St T Gen),
    (width options <= 0)%Z \/ (height options <= 0)%Z ->
    render fuel options scene pixels st = Done (pixels, st).
Proof.
  intros fuel options scene pixels st Hsize. unfold render, bind.
  destruct Hsize as [Hw | Hh].
  - rewrite for_loop_skip; [reflexivity|].
    intros j bc st1.
    replace (Z.to_nat (width options)) with 0%nat by lia. reflexivity.
  - replace (Z.to_nat (height options)) with 0%nat by lia. reflexivity.
Qed.

(** X16: on a buffer with fewer than [width * height] slots [render]
    writes past its end. *)
Theorem render_short_buffer_faults :
  forall (fuel : nat) (options : Options T Matrix44) (scene : Scene)
         (pixels : list (Vec3 T)) (st : St T Gen),
    (maxDepth options < INT_MAX)%Z ->
    (Z.to_nat (maxDepth options + 1) < fuel)%nat ->
    (List.length pixels < Z.to_nat (height options) * Z.to_nat (width options))%nat ->
    render fuel options scene pixels st = Fault.
Proof.
  intros fuel options scene pixels st Hmax Hfuel Hlen.
  assert (Hprim : forall dir st1, exists c st2 evs st2',
             castRay fuel (cameraOrigin options) dir scene options 0 st1
             = Done (c, st2) /\
             trace st2 = trace st1 ++ evs /\ written_slots evs = [] /\
             castRay fuel (cameraOrigin options) dir scene options 0
                     (mkSt (gen st1) []) = Done (c, st2') /\
             gen st2' = gen st2).
  { intros dir st1. apply castRay_primary; assumption. }
  pose proof (render_rows_fault fuel options scene Hprim
                (Z.to_nat (width options)) (Z.to_nat (height options)) 0 pixels 0 st)
    as E.
  change (Z.of_nat 0) with 0%Z in E.
  unfold render, bind. rewrite E; [reflexivity | cbn; lia].
Qed.
End RenderFacts.

(** ** The further theorems at work *)

Section MoreWitnesses.
Open Scope R_scope.

Lemma vlength_downward : vlength downward = 1.
Proof. apply vlength_unit. cbn. ring. Qed.

Lemma reflect_involutive_witness :
  vlength unitY = 1 /\ reflect (reflect (mkVec3 1 (-1) 0) unitY) unitY = mkVec3 1 (-1) 0.
Proof.
  split; [exact vlength_unitY|].
  exact (reflect_involutive (mkVec3 1 (-1) 0) unitY vlength_unitY).
Defined.

Lemma reflect_isometry_witness :
  vlength unitY = 1 /\
  dotProduct (reflect unitX unitY) (reflect downward unitY) = dotProduct unitX downward.
Proof.
  split; [exact vlength_unitY|].
  exact (reflect_isometry unitX downward unitY vlength_unitY).
Defined.

Lemma specular_cosine_witness :
  vlength downward = 1 /\ vlength unitY = 1 /\
  dotProduct (reflect downward unitY) (vneg downward)
  = 2 * (dotProduct downward unitY * dotProduct downward unitY) - 1.
Proof.
  split; [exact vlength_downward|]. split; [exact vlength_unitY|].
  exact (proj1 (specular_cosine downward unitY vlength_downward vlength_unitY)).
Defined.

(** Head-on from outside: the discriminant is 1. *)
Lemma refract_k_head_on (ior : R) : refract_k downward unitY ior = 1.
Proof.
  unfold refract_k.
  rewrite (refract_locals_unit downward unitY ior vlength_downward vlength_unitY).
  assert (Hd : dotProduct downward unitY = -1) by (cbn; ring).
  rewrite Hd.
  assert (Hb : Rltb (-1) 0 = true) by (apply Rltb_true; lra).
  rewrite Hb. cbn. ring.
Qed.

Lemma refract_unit_witness :
  0 <= refract_k downward unitY (3 / 2) /\
  vlength (refract downward unitY (3 / 2)) = 1.
Proof.
  assert (Hk : 0 <= refract_k downward unitY (3 / 2))
    by (rewrite refract_k_head_on; lra).
  split; [exact Hk|].
  apply (refract_unit downward unitY (3 / 2) vlength_downward vlength_unitY); [lra | exact Hk].
Defined.

Lemma refract_snell_witness :
  0 <= refract_k downward unitY (3 / 2) /\
  vsub (refract downward unitY (3 / 2))
       (sscale (dotProduct (refract downward unitY (3 / 2)) unitY) unitY)
  = sscale (refract_eta downward unitY (3 / 2))
           (vsub downward (sscale (dotProduct downward unitY) unitY)).
Proof.
  assert (Hk : 0 <= refract_k downward unitY (3 / 2))
    by (rewrite refract_k_head_on; lra).
  assert (Hior : 0 < 3 / 2) by lra.
  split; [exact Hk|].
  exact (proj2 (proj2 (refract_snell downward unitY (3 / 2)
                         vlength_downward vlength_unitY Hior Hk))).
Defined.

Lemma refract_normal_incidence_witness :
  refract unitY unitY (3 / 2) = unitY /\
  refract (vneg unitY) unitY (3 / 2) = vneg unitY.
Proof.
  apply (refract_normal_incidence unitY (3 / 2) vlength_unitY). lra.
Defined.

Lemma refract_total_reflection_side_witness :
  refract_k unitX unitY 2 < 0 /\
  ((dotProduct unitX unitY < 0 /\ 2 < 1) \/ (0 <= dotProduct unitX unitY /\ 1 < 2)).
Proof.
  assert (Hk : refract_k unitX unitY 2 < 0) by (rewrite refract_k_grazing; lra).
  split; [exact Hk|].
  apply (refract_total_reflection_side unitX unitY 2); [lra | exact Hk].
Defined.

Lemma diffuse_sample_direction_witness :
  vlength (toWorld (uniformSampleHemisphere (1 / 2) (1 / 4)) unitY
                   (fst (createCoordinateSystem unitY))
                   (snd (createCoordinateSystem unitY))) = 1 /\
  dotProduct (toWorld (uniformSampleHemisphere (1 / 2) (1 / 4)) unitY
                      (fst (createCoordinateSystem unitY))
                      (snd (createCoordinateSystem unitY))) unitY = 1 / 2.
Proof.
  assert (H1 : 0 <= 1 / 2 < 1) by lra.
  assert (H2 : 0 <= 1 / 4 < 1) by lra.
  pose proof (diffuse_sample_direction unitY (1 / 2) (1 / 4) vlength_unitY H1 H2)
    as (Hl & Hd & _).
  split; [exact Hl | exact Hd].
Defined.

Lemma castRay_call_bound_witness :
  exists (c : Vec3 R) (st' : St R nat) (evs : list (Event R)),
    castRay (H0 := mirrorWorld) 4 black downward tt (mockOptions 1 1 2) 0 st0
    = Done (c, st') /\
    trace st' = trace st0 ++ evs /\
    (130 * count_casts evs + 1 <= 131 ^ 4)%nat.
Proof.
  assert (H1 : (maxDepth (mockOptions 1 1 2) < INT_MAX)%Z) by reflexivity.
  assert (H2 : int_range 0) by (unfold int_range, INT_MIN, INT_MAX; lia).
  assert (H3 : (Z.to_nat (maxDepth (mockOptions 1 1 2) + 1 - 0) < 4)%nat)
    by (cbn; lia).
  exact (castRay_call_bound (H0 := mirrorWorld) tt (mockOptions 1 1 2)
           black downward 0 st0 4 H1 H2 H3).
Defined.

Lemma castRay_diffuse_leaf_draws_witness :
  exists (c : Vec3 R) (st' : St R nat),
    castRay (H0 := diffuseWorld) 2 black downward tt leafOptions 0 st0 = Done (c, st') /\
    gen st' = after_draws (H0 := diffuseWorld) (2 * N_samples) (gen st0).
Proof.
  apply (castRay_diffuse_leaf_draws (H0 := diffuseWorld) 0 black downward tt leafOptions
           0 st0 1 0%Z tt tt (mkVec3 0 1 0) tt white diffuseMaterial).
  - reflexivity.
  - reflexivity.
  - unfold int_range, INT_MIN, INT_MAX. lia.
  - reflexivity.
  - reflexivity.
  - reflexivity.
  - reflexivity.
Defined.

(** Grazing from inside glass: the discriminant is negative. *)
Lemma refract_k_glass : Rltb (refract_k unitX unitY (3 / 2)) 0 = true.
Proof.
  apply Rltb_true.
  unfold refract_k, refract_locals, smin, smax, dotProduct. cbn.
  replace (1 * 0 + 0 * 1 + 0 * 0) with 0 by ring.
  assert (H1 : Rltb (Ropp 1) 0 = true) by (apply Rltb_true; lra).
  rewrite H1.
  assert (H2 : Rltb 1 0 = false) by (apply Rltb_false; lra).
  rewrite H2.
  assert (H3 : Rltb 0 0 = false) by (apply Rltb_false; lra).
  rewrite H3. lra.
Qed.

Lemma castRay_total_reflection_recurses_witness :
  exists (c : Vec3 R) (st' : St R nat) (evs : list (Event R)),
    castRay (H0 := glassWorld) 4 black unitX tt (mockOptions 1 1 2) 0 st0
    = Done (c, st') /\
    trace st' = trace st0 ++ evs /\
    In (EvIntersect (vadd black (vscale unitX 1)) (normalize_R vzero)) evs.
Proof.
  apply (castRay_total_reflection_recurses (H0 := glassWorld) 4 black unitX tt
           (mockOptions 1 1 2) 0 st0 1 0%Z tt tt unitY tt white glassMaterial).
  - cbn. lia.
  - reflexivity.
  - unfold int_range, INT_MIN, INT_MAX. lia.
  - cbn. lia.
  - reflexivity.
  - reflexivity.
  - reflexivity.
  - reflexivity.
  - exact refract_k_glass.
Defined.

Lemma render_empty_scene_witness :
  exists st' : St R nat,
    render (H0 := emptyWorld) 1 (mockOptions 2 2 1) tt [black; black; black; black] st0
    = Done ([white; white; white; white], st') /\
    gen st' = gen st0.
Proof.
  apply (render_empty_scene (H0 := emptyWorld) 0 (mockOptions 2 2 1) tt
           [black; black; black; black] st0).
  - reflexivity.
  - reflexivity.
Defined.

Lemma render_no_diffuse_independent_witness :
  exists (out : list (Vec3 R)) (st' : St R nat),
    render (H0 := mirrorWorld) 3 (mockOptions 2 1 1) tt [black; black] st0
    = Done (out, st') /\
    gen st' = gen st0.
Proof.
  destruct (render_no_diffuse_independent (H0 := mirrorWorld) 3 (mockOptions 2 1 1) tt
              [black; black] st0) as (out & st' & E & Hg & _).
  - reflexivity.
  - reflexivity.
  - cbn. lia.
  - reflexivity.
  - exists out, st'. split; assumption.
Defined.

Lemma render_frame_witness :
  exists (out : list (Vec3 R)) (st' : St R nat),
    render (H0 := lampWorld) 3 (mockOptions 2 2 1) tt
           [black; black; black; black; black] st0
    = Done (out, st') /\
    List.length out = 5%nat /\ drop 4 out = [black].
Proof.
  apply (render_frame (H0 := lampWorld) 3 (mockOptions 2 2 1) tt
           [black; black; black; black; black] st0).
  - reflexivity.
  - cbn. lia.
  - cbn. lia.
Defined.

Lemma render_no_pixels_witness :
  render (H0 := lampWorld) 0 (mockOptions 0 2 1) tt [black] st0 = Done ([black], st0).
Proof.
  apply (render_no_pixels (H0 := lampWorld)). left. cbn. lia.
Defined.

Lemma render_short_buffer_faults_witness :
  render (H0 := lampWorld) 3 (mockOptions 2 2 1) tt [black; black; black] st0 = Fault.
Proof.
  apply (render_short_buffer_faults (H0 := lampWorld)).
  - reflexivity.
  - cbn. lia.
  - cbn. lia.
Defined.
End MoreWitnesses.
